(** * Data-Driven-Ui-React: the DataTable pipeline and the query hooks

    A shallow embedding of
    - [DataTable.tsx]: the sort-state transition [handleSort] and the
      filter/sort computation [processedData];
    - [useDashboardData.ts]: the hooks [useUser] and [useCreateTransaction],
      run against a model of the query cache they are written for.

    JavaScript values are an inductive type, objects live in a heap of
    mutable cells (arrays are sorted in place by the source, so aliasing is
    kept), and every operation that can raise a [TypeError] returns a
    completion. *)

From stdpp Require Import gmap strings list sorting.
From Stdlib Require Import ZArith DecimalString Ascii.
From Stdlib Require DecimalZ.

Open Scope string_scope.
Open Scope list_scope.
Open Scope Z_scope.

(* ===================================================================== *)
(** ** JavaScript values *)
(* ===================================================================== *)

(** A JavaScript number: the finite ones are kept as integers (the pipeline
    only orders them, subtracts them, negates them and prints them), and
    [NaN] is kept because comparisons against it are all false. *)
Inductive number :=
| NaN
| Num (z : Z).

(** The values a row field can hold (spec, data model: string, number,
    boolean, date, nested structure, or null/absent).  A [Date] is its time
    value ([NaN] for an invalid date); a nested structure is represented by
    the string its [toString] returns, which is all the pipeline can see of
    it. *)
Inductive value :=
| VUndefined
| VNull
| VBoolean (b : bool)
| VNumber (n : number)
| VString (s : string)
| VDate (t : number)
| VObject (repr : string).

#[global] Instance number_eq_dec : EqDecision number.
Proof. solve_decision. Defined.
#[global] Instance value_eq_dec : EqDecision value.
Proof. solve_decision. Defined.

Definition number_neg (n : number) : number :=
  match n with NaN => NaN | Num z => Num (- z) end.

Definition number_sub (a b : number) : number :=
  match a, b with
  | Num x, Num y => Num (x - y)
  | _, _ => NaN
  end.

(** [n > 0] and [n < 0] on numbers; both are false on [NaN]. *)
Definition number_pos (n : number) : bool :=
  match n with NaN => false | Num z => 0 <? z end.

Definition number_negative (n : number) : bool :=
  match n with NaN => false | Num z => z <? 0 end.

(** [v == null]: true of [null] and [undefined] only. *)
Definition isNullish (v : value) : bool :=
  match v with VUndefined | VNull => true | _ => false end.

(** [typeof v === 'string'] and [v instanceof Date]. *)
Definition isString (v : value) : bool :=
  match v with VString _ => true | _ => false end.

Definition isDate (v : value) : bool :=
  match v with VDate _ => true | _ => false end.

(** Truthiness of a string ([if (searchTerm)], [if (accessor)]): only the
    empty string is falsy. *)
Definition truthy (s : string) : bool := negb (String.eqb s "").

(** Truthiness of a [string | undefined] / [string | null]. *)
Definition truthy_opt (o : option string) : bool :=
  match o with Some s => truthy s | None => false end.

(** What the host supplies: the Unicode case mapping, the locale-aware
    collation behind [localeCompare], the printing of dates and the parsing
    of numeric strings.  The development is parametric in them. *)
Class Engine := {
  toLowerCase : string → string;
  localeCompareStr : string → string → number;
  dateToString : number → string;
  stringToNumber : string → number;
}.

Section Primitives.
Context {E : Engine}.

Definition numberToString (n : number) : string :=
  match n with
  | NaN => "NaN"
  | Num z => NilZero.string_of_int (Z.to_int z)
  end.

(** [String(v)]. *)
Definition ToString (v : value) : string :=
  match v with
  | VUndefined => "undefined"
  | VNull => "null"
  | VBoolean true => "true"
  | VBoolean false => "false"
  | VNumber n => numberToString n
  | VString s => s
  | VDate t => dateToString t
  | VObject repr => repr
  end.

(** [ToPrimitive] with hint number, followed by [ToNumber] where the
    primitive is not a string: a string or an object keeps its string, a
    date gives its time value. *)
Definition ToPrimitive (v : value) : string + number :=
  match v with
  | VString s => inl s
  | VObject repr => inl repr
  | VUndefined => inr NaN
  | VNull => inr (Num 0)
  | VBoolean b => inr (Num (if b then 1 else 0))
  | VNumber n => inr n
  | VDate t => inr t
  end.

Definition ToNumber (p : string + number) : number :=
  match p with inl s => stringToNumber s | inr n => n end.

(** The abstract relational comparison [x < y]; [None] is the
    [undefined] outcome, taken when a side is [NaN]. *)
Definition IsLessThan (x y : value) : option bool :=
  match ToPrimitive x, ToPrimitive y with
  | inl s, inl t => Some (String.ltb s t)
  | px, py =>
      match ToNumber px, ToNumber py with
      | Num a, Num b => Some (a <? b)
      | _, _ => None
      end
  end.

(** [x < y] and [x > y] as the source writes them. *)
Definition js_lt (x y : value) : bool :=
  match IsLessThan x y with Some b => b | None => false end.

Definition js_gt (x y : value) : bool := js_lt y x.

(** [s.includes(sub)]: [sub] occurs in [s] at some position. *)
Fixpoint includes (s sub : string) : bool :=
  String.prefix sub s ||
  match s with
  | EmptyString => false
  | String _ s' => includes s' sub
  end.

End Primitives.

(* ===================================================================== *)
(** ** Sort state (DataTable.tsx, [SortState] and [handleSort]) *)
(* ===================================================================== *)

Inductive Direction := asc | desc.

Record SortState := {
  sort_column : option string;
  sort_direction : Direction;
}.

#[global] Instance Direction_eq_dec : EqDecision Direction.
Proof. solve_decision. Defined.
#[global] Instance SortState_eq_dec : EqDecision SortState.
Proof. solve_decision. Defined.

(** [useState<SortState>({ column: null, direction: 'asc' })]. *)
Definition initialSortState : SortState :=
  {| sort_column := None; sort_direction := asc |}.

(** The updater passed to [setSortState] by [handleSort(columnId)]. *)
Definition handleSort (columnId : string) (prev : SortState) : SortState :=
  if negb (bool_decide (sort_column prev = Some columnId)) then
    {| sort_column := Some columnId; sort_direction := asc |}
  else if bool_decide (sort_direction prev = asc) then
    {| sort_column := Some columnId; sort_direction := desc |}
  else
    {| sort_column := None; sort_direction := asc |}.

(* ===================================================================== *)
(** ** Completions, the heap and the monad of the pipeline *)
(* ===================================================================== *)

Inductive error :=
| TypeError (msg : string)
| Error (msg : string).

(** The outcome of evaluating JavaScript code: a value, or a thrown error. *)
Inductive completion (A : Type) :=
| Normal (a : A)
| Throw (e : error).
Arguments Normal {A} a.
Arguments Throw {A} e.

#[global] Instance completion_ret : MRet completion := λ A a, Normal a.
#[global] Instance completion_bind : MBind completion := λ A B f c,
  match c with Normal a => f a | Throw e => Throw e end.

(** Objects are heap cells, named by their address.  An array holds the
    addresses of its elements, a row its fields. *)
Definition loc := nat.

Inductive obj :=
| OArray (elems : list loc)
| ORow (fields : gmap string value).

Abbreviation heap := (list obj).

(** Code that reads and writes the heap and may throw. *)
Definition M (A : Type) : Type := heap → completion (A * heap).

#[global] Instance M_ret : MRet M := λ A a h, Normal (a, h).
#[global] Instance M_bind : MBind M := λ A B f m h,
  match m h with
  | Normal (a, h') => f a h'
  | Throw e => Throw e
  end.

Definition throw {A} (e : error) : M A := λ _, Throw e.

Definition lift {A} (c : completion A) : M A := λ h,
  match c with Normal a => Normal (a, h) | Throw e => Throw e end.

(** A new object goes to the first free address. *)
Definition alloc (o : obj) : M loc := λ h, Normal (List.length h, h ++ [o]).

Definition readArray (a : loc) : M (list loc) := λ h,
  match h !! a with
  | Some (OArray l) => Normal (l, h)
  | _ => Throw (TypeError "not an array")
  end.

Definition writeArray (a : loc) (l : list loc) : M unit := λ h,
  match h !! a with
  | Some (OArray _) => Normal (tt, <[a := OArray l]> h)
  | _ => Throw (TypeError "not an array")
  end.

(** [row[field]]: the field's value, [undefined] when the row has no such
    field. *)
Definition getProp (r : loc) (k : string) : M value := λ h,
  match h !! r with
  | Some (ORow m) => Normal (default VUndefined (m !! k), h)
  | _ => Throw (TypeError "not a row object")
  end.

(* ===================================================================== *)
(** ** Array methods used by the pipeline *)
(* ===================================================================== *)

(** [[...a]]: a new array with the elements of [a]. *)
Definition spread (a : loc) : M loc :=
  l ← readArray a; alloc (OArray l).

(** [fields.some(p)], left to right, stopping at the first hit. *)
Fixpoint someM {A} (p : A → M bool) (l : list A) : M bool :=
  match l with
  | [] => mret false
  | x :: l' => b ← p x; if b : bool then mret true else someM p l'
  end.

Fixpoint filterM (p : loc → M bool) (l : list loc) : M (list loc) :=
  match l with
  | [] => mret []
  | x :: l' =>
      b ← p x;
      kept ← filterM p l';
      mret (if b : bool then x :: kept else kept)
  end.

(** [a.filter(p)]: the result array is created, then [p] is called on the
    elements of [a] in order; [a] itself is not written. *)
Definition Array_filter (a : loc) (p : loc → M bool) : M loc :=
  r ← alloc (OArray []);
  l ← readArray a;
  kept ← filterM p l;
  _ ← writeArray r kept;
  mret r.

(** [a.sort(comparefn)] sorts [a] in place and is stable (ECMAScript 2019).
    [x] is placed after [y] when [comparefn(x, y) > 0]; a [NaN] result
    counts as [+0].  The sort is modelled by the stable insertion sort
    below.  When [comparefn] is a consistent comparator every stable sort
    returns this same array; when it is not, ECMAScript leaves the order to
    the implementation, and the model fixes this one. *)
Fixpoint insertM (comparefn : loc → loc → M number) (x : loc) (l : list loc)
  : M (list loc) :=
  match l with
  | [] => mret [x]
  | y :: l' =>
      v ← comparefn x y;
      if number_pos v then (r ← insertM comparefn x l'; mret (y :: r))
      else mret (x :: y :: l')
  end.

Fixpoint sortM (comparefn : loc → loc → M number) (l : list loc)
  : M (list loc) :=
  match l with
  | [] => mret []
  | x :: l' => s ← sortM comparefn l'; insertM comparefn x s
  end.

Definition Array_sort (a : loc) (comparefn : loc → loc → M number) : M unit :=
  l ← readArray a;
  s ← sortM comparefn l;
  writeArray a s.

(* ===================================================================== *)
(** ** The filter/sort pipeline (DataTable.tsx, [processedData]) *)
(* ===================================================================== *)

(** [ColumnDef<T>]; [header], [cell], [width] and [align] are presentation
    and play no part in the pipeline. *)
Record ColumnDef := {
  col_id : string;
  col_accessorKey : option string;
  col_sortable : bool;
}.

(** The props of [DataTable] that [processedData] depends on. *)
Record DataTableProps := {
  data : loc;
  columns : list ColumnDef;
  searchFields : option (list string);
}.

Section Pipeline.
Context {E : Engine}.

(** [s.localeCompare(t)] and [d.getTime()]: methods of strings and of dates
    only; on any other receiver the call is a [TypeError]. *)
Definition localeCompare (v arg : value) : completion number :=
  match v with
  | VString s => Normal (localeCompareStr s (ToString arg))
  | _ => Throw (TypeError "localeCompare is not a function")
  end.

Definition getTime (v : value) : completion number :=
  match v with
  | VDate t => Normal t
  | _ => Throw (TypeError "getTime is not a function")
  end.

(** The body of the comparator once [aValue] and [bValue] are read. *)
Definition compareValues (direction : Direction) (aValue bValue : value)
  : completion number :=
  if isNullish aValue && isNullish bValue then Normal (Num 0)
  else if isNullish aValue then
    Normal (if bool_decide (direction = asc) then Num (-1) else Num 1)
  else if isNullish bValue then
    Normal (if bool_decide (direction = asc) then Num 1 else Num (-1))
  else
    comparison ←
      (if isString aValue && isString bValue then
         localeCompare aValue bValue
       else if isDate aValue && isDate bValue then
         ta ← getTime aValue; tb ← getTime bValue; Normal (number_sub ta tb)
       else
         Normal (if js_lt aValue bValue then Num (-1)
                 else if js_gt aValue bValue then Num 1 else Num 0));
    Normal (if bool_decide (direction = asc) then comparison
            else number_neg comparison).

(** [(a, b) => { const aValue = a[accessor]; const bValue = b[accessor]; ... }] *)
Definition comparefn (direction : Direction) (accessor : string) (a b : loc)
  : M number :=
  aValue ← getProp a accessor;
  bValue ← getProp b accessor;
  lift (compareValues direction aValue bValue).

(** [searchFields || columns.filter(col => col.accessorKey)
                           .map(col => col.accessorKey)] *)
Definition fieldsToSearch (props : DataTableProps) : list string :=
  match searchFields props with
  | Some fields => fields
  | None =>
      omap col_accessorKey
        (filter (λ col, truthy_opt (col_accessorKey col) = true) (columns props))
  end.

(** [(field) => { const value = row[field];
                  return value != null &&
                    String(value).toLowerCase().includes(searchLower); }] *)
Definition fieldMatches (searchLower : string) (row : loc) (field : string)
  : M bool :=
  value ← getProp row field;
  mret (negb (isNullish value)
        && includes (toLowerCase (ToString value)) searchLower).

(** [columns.find(col => col.id === sortState.column)?.accessorKey] *)
Definition findAccessor (props : DataTableProps) (column : string)
  : option string :=
  match List.find (λ col, String.eqb (col_id col) column) (columns props) with
  | Some col => col_accessorKey col
  | None => None
  end.

Definition processedData (props : DataTableProps) (searchTerm : string)
    (sortState : SortState) : M loc :=
  result ← spread (data props);
  (* Apply search filter *)
  result ←
    (if truthy searchTerm then
       let searchLower := toLowerCase searchTerm in
       Array_filter result
         (λ row, someM (fieldMatches searchLower row) (fieldsToSearch props))
     else mret result);
  (* Apply sorting *)
  _ ←
    (match sort_column sortState with
     | Some column =>
         if truthy column then
           match findAccessor props column with
           | Some accessor =>
               if truthy accessor then
                 Array_sort result
                   (comparefn (sort_direction sortState) accessor)
               else mret tt
           | None => mret tt
           end
         else mret tt
     | None => mret tt
     end);
  mret result.

End Pipeline.

(* ===================================================================== *)
(** ** Vocabulary of the statements *)
(* ===================================================================== *)

#[global] Instance obj_eq_dec : EqDecision obj.
Proof. solve_decision. Defined.

(** The value of field [k] of the row at [r]. *)
Definition field (h : heap) (r : loc) (k : string) : value :=
  match h !! r with
  | Some (ORow m) => default VUndefined (m !! k)
  | _ => VUndefined
  end.

Definition isRowb (h : heap) (r : loc) : bool :=
  match h !! r with Some (ORow _) => true | _ => false end.

(** The input of the pipeline is well formed: [d] is an array whose
    elements [rows] are row objects. *)
Definition holdsRows (h : heap) (d : loc) (rows : list loc) : bool :=
  bool_decide (h !! d = Some (OArray rows)) && forallb (isRowb h) rows.

(** Running [m] from [h] returns an array that holds [out], in heap [h']. *)
Definition produces (m : M loc) (h : heap) (out : list loc) (h' : heap)
  : Prop :=
  ∃ r, m h = Normal (r, h') ∧ h' !! r = Some (OArray out).

(** An occurrence of [a] comes before an occurrence of [b] in [l]. *)
Definition before {A} (a b : A) (l : list A) : Prop :=
  [a; b] `sublist_of` l.

(** [sub] occurs in [s]. *)
Definition substring (sub s : string) : Prop :=
  ∃ pre post, s = pre +:+ sub +:+ post.

(** The stable insertion sort of [Array_sort], on plain lists. *)
Section SortBy.
Context {A : Type} (cmp : A → A → number).

Fixpoint insertBy (x : A) (l : list A) : list A :=
  match l with
  | [] => [x]
  | y :: l' => if number_pos (cmp x y) then y :: insertBy x l' else x :: l
  end.

Definition sortBy (l : list A) : list A := foldr insertBy [] l.

End SortBy.

Section Vocabulary.
Context {E : Engine}.

(** The number the comparator returns on two field values ([NaN] standing
    in where it would throw; [compareValues_total] shows it never does). *)
Definition cmpValues (d : Direction) (a b : value) : number :=
  match compareValues d a b with Normal n => n | Throw _ => NaN end.

Definition cmpRows (h : heap) (d : Direction) (accessor : string)
    (a b : loc) : number :=
  cmpValues d (field h a accessor) (field h b accessor).

(** Row [r] matches the search on field [f]: the field is neither null nor
    absent and its lower-cased text contains the lower-cased search text. *)
Definition matchesOn (h : heap) (searchTerm : string) (r : loc) (f : string)
  : Prop :=
  isNullish (field h r f) = false
  ∧ substring (toLowerCase searchTerm) (toLowerCase (ToString (field h r f))).

Definition fieldMatchesb (h : heap) (searchLower : string) (r : loc)
    (f : string) : bool :=
  negb (isNullish (field h r f))
  && includes (toLowerCase (ToString (field h r f))) searchLower.

Definition rowMatchesb (h : heap) (fields : list string)
    (searchLower : string) (r : loc) : bool :=
  existsb (fieldMatchesb h searchLower r) fields.

(** The fields the search looks at: the [searchFields] list when one is
    given, otherwise the accessor keys of the columns that have one (the
    source tests the key for truthiness, so an empty key counts as none). *)
Definition searchable (props : DataTableProps) (f : string) : Prop :=
  match searchFields props with
  | Some fields => f ∈ fields
  | None =>
      ∃ col, col ∈ columns props ∧ col_accessorKey col = Some f ∧ f ≠ ""
  end.

(** Row [r] matches the search: it does on one of the searched fields. *)
Definition Matches (h : heap) (props : DataTableProps) (searchTerm : string)
    (r : loc) : Prop :=
  ∃ f, searchable props f ∧ matchesOn h searchTerm r f.

(** The accessor the sort runs on, if it runs. *)
Definition activeAccessor (props : DataTableProps) (st : SortState)
  : option string :=
  match sort_column st with
  | Some column =>
      if truthy column then
        match findAccessor props column with
        | Some accessor => if truthy accessor then Some accessor else None
        | None => None
        end
      else None
  | None => None
  end.

(** The rows [processedData] leaves in its result, as a function of the
    input rows. *)
Definition visibleRows (h : heap) (rows : list loc) (props : DataTableProps)
    (searchTerm : string) (st : SortState) : list loc :=
  let kept :=
    if truthy searchTerm then
      filter (λ r, rowMatchesb h (fieldsToSearch props)
                     (toLowerCase searchTerm) r = true) rows
    else rows in
  match activeAccessor props st with
  | Some accessor => sortBy (cmpRows h (sort_direction st) accessor) kept
  | None => kept
  end.

(** The sort keys of [a] and [b] compare equal: the comparator returns
    neither a positive nor a negative number on them. *)
Definition tied (h : heap) (accessor : string) (a b : loc) : Prop :=
  number_pos (cmpRows h asc accessor a b) = false
  ∧ number_negative (cmpRows h asc accessor a b) = false.

(** Rows whose sorted field is null or absent. *)
Definition nullAt (h : heap) (accessor : string) (r : loc) : Prop :=
  isNullish (field h r accessor) = true.

(** All null rows after all the others, and all null rows before. *)
Definition NullsLast (h : heap) (accessor : string) (out : list loc) : Prop :=
  ∃ vs ns, out = vs ++ ns
    ∧ Forall (λ r, ¬ nullAt h accessor r) vs ∧ Forall (nullAt h accessor) ns.

Definition NullsFirst (h : heap) (accessor : string) (out : list loc) : Prop :=
  ∃ ns vs, out = ns ++ vs
    ∧ Forall (nullAt h accessor) ns ∧ Forall (λ r, ¬ nullAt h accessor r) vs.

End Vocabulary.

(* ===================================================================== *)
(** ** The query cache *)
(* ===================================================================== *)

(** A cache key: [['users']], [['users', id]], [['charts', 'revenue']]. *)
Abbreviation CacheKey := (list string).

Inductive Status := st_idle | st_loading | st_success | st_error.

Record CacheEntry (D : Type) := {
  entry_data : option D;
  entry_fetchedAt : option Z;
  entry_status : Status;
  entry_error : option error;
  entry_invalidated : bool;
}.
Arguments entry_data {D} _.
Arguments entry_fetchedAt {D} _.
Arguments entry_status {D} _.
Arguments entry_error {D} _.
Arguments entry_invalidated {D} _.

(** The one fetch under way for a key, and the callers waiting for it. *)
Record InFlightRequest := {
  request_id : nat;
  subscribers : list nat;
}.

(** Modelled from the spec: the cache itself is the query library's and
    is not part of the sources; sections 3, 4.1 and 5 of the spec describe
    it.  [entries] and [inflight] are the two keyed stores of the spec;
    [fetched] logs every call of a [fetchFn], [notified] every result handed
    to a subscriber, and [next_request] numbers the requests (the
    generation marker that tells a superseded response from the current
    one).  Eviction after [retainFor] is not modelled. *)
Record QueryCache (D : Type) := {
  entries : gmap CacheKey (CacheEntry D);
  inflight : gmap CacheKey InFlightRequest;
  fetched : list CacheKey;
  next_request : nat;
  notified : list (nat * CacheKey * completion D);
}.
Arguments entries {D} _.
Arguments inflight {D} _.
Arguments fetched {D} _.
Arguments next_request {D} _.
Arguments notified {D} _.

Record QueryOptions := {
  staleAfter : Z;
  retainFor : Z;
}.

Section Cache.
Context {D : Type}.

Definition emptyCache : QueryCache D :=
  {| entries := ∅; inflight := ∅; fetched := []; next_request := 0%nat;
     notified := [] |}.

Definition withEntries (c : QueryCache D)
    (es : gmap CacheKey (CacheEntry D)) : QueryCache D :=
  {| entries := es; inflight := inflight c; fetched := fetched c;
     next_request := next_request c; notified := notified c |}.

Definition newEntry (d : option D) (s : Status) : CacheEntry D :=
  {| entry_data := d; entry_fetchedAt := None; entry_status := s;
     entry_error := None; entry_invalidated := false |}.

Definition withStatus (e : CacheEntry D) (s : Status) : CacheEntry D :=
  {| entry_data := entry_data e; entry_fetchedAt := entry_fetchedAt e;
     entry_status := s; entry_error := entry_error e;
     entry_invalidated := entry_invalidated e |}.

Definition withData (e : CacheEntry D) (d : D) : CacheEntry D :=
  {| entry_data := Some d; entry_fetchedAt := entry_fetchedAt e;
     entry_status := entry_status e; entry_error := entry_error e;
     entry_invalidated := entry_invalidated e |}.

Definition markStale (e : CacheEntry D) : CacheEntry D :=
  {| entry_data := entry_data e; entry_fetchedAt := entry_fetchedAt e;
     entry_status := entry_status e; entry_error := entry_error e;
     entry_invalidated := true |}.

(** Modelled from the spec: an entry is fresh while
    [now - fetchedAt < staleAfter], unless [invalidate] marked it stale. *)
Definition isFresh (e : CacheEntry D) (now : Z) (opts : QueryOptions) : bool :=
  negb (entry_invalidated e)
  && match entry_fetchedAt e with
     | Some t => now - t <? staleAfter opts
     | None => false
     end.

Definition freshAt (c : QueryCache D) (key : CacheKey) (now : Z)
    (opts : QueryOptions) : bool :=
  match entries c !! key with
  | Some e => isFresh e now opts
  | None => false
  end.

(** Modelled from the spec: a requester attaches to the in-flight request
    of the key if there is one; only otherwise is [fetchFn] called, and a
    new in-flight request created. *)
Definition startFetch (key : CacheKey) (caller : nat) (c : QueryCache D)
  : QueryCache D :=
  match inflight c !! key with
  | Some r =>
      {| entries := entries c;
         inflight :=
           <[key := {| request_id := request_id r;
                       subscribers := subscribers r ++ [caller] |}]>
             (inflight c);
         fetched := fetched c; next_request := next_request c;
         notified := notified c |}
  | None =>
      {| entries := entries c;
         inflight :=
           <[key := {| request_id := next_request c;
                       subscribers := [caller] |}]> (inflight c);
         fetched := fetched c ++ [key];
         next_request := S (next_request c);
         notified := notified c |}
  end.

(** Modelled from the spec: [get(key, fetchFn, options)].  A fresh entry
    is served with no fetch; a stale one is served while one background
    refresh is triggered; with no entry the status is loading, no data is
    returned and the fetch is triggered. *)
Definition get (key : CacheKey) (caller : nat) (now : Z) (opts : QueryOptions)
    (c : QueryCache D) : (option D * Status * option error) * QueryCache D :=
  match entries c !! key with
  | Some e =>
      if isFresh e now opts then ((entry_data e, st_success, None), c)
      else
        ((entry_data e, st_success, None),
         startFetch key caller
           (withEntries c (<[key := withStatus e st_loading]> (entries c))))
  | None =>
      ((None, st_loading, None),
       startFetch key caller
         (withEntries c (<[key := newEntry None st_loading]> (entries c))))
  end.

(** Modelled from the spec: on settlement of the request [req] for [key]
    the entry is updated and every subscriber notified; a failure keeps the
    data held before.  A response whose request is no longer the in-flight
    one (cancelled or superseded) is dropped. *)
Definition settle (key : CacheKey) (req : nat) (outcome : completion D)
    (now : Z) (c : QueryCache D) : QueryCache D :=
  match inflight c !! key with
  | Some r =>
      if (request_id r =? req)%nat then
        let old := default (newEntry None st_idle) (entries c !! key) in
        let e :=
          match outcome with
          | Normal d =>
              {| entry_data := Some d; entry_fetchedAt := Some now;
                 entry_status := st_success; entry_error := None;
                 entry_invalidated := false |}
          | Throw err =>
              {| entry_data := entry_data old;
                 entry_fetchedAt := entry_fetchedAt old;
                 entry_status := st_error; entry_error := Some err;
                 entry_invalidated := entry_invalidated old |}
          end in
        {| entries := <[key := e]> (entries c);
           inflight := delete key (inflight c);
           fetched := fetched c; next_request := next_request c;
           notified :=
             notified c ++ ((λ s, (s, key, outcome)) <$> subscribers r) |}
      else c
  | None => c
  end.

(** Modelled from the spec: [invalidate(keyPrefix)] marks every entry
    whose key starts with the prefix as stale and deletes no data. *)
Definition invalidate (keyPrefix : CacheKey) (c : QueryCache D)
  : QueryCache D :=
  withEntries c
    (map_imap (λ k e, Some (if bool_decide (keyPrefix `prefix_of` k)
                            then markStale e else e)) (entries c)).

(** Modelled from the spec: [setData(key, updater)] overwrites the data of
    the entry with [updater(data)] and touches neither status nor
    [fetchedAt]. *)
Definition setData (key : CacheKey) (updater : option D → D)
    (c : QueryCache D) : QueryCache D :=
  let e :=
    match entries c !! key with
    | Some e => withData e (updater (entry_data e))
    | None => newEntry (Some (updater None)) st_idle
    end in
  withEntries c (<[key := e]> (entries c)).

(** [queryClient.getQueryData(key)]: the data held, [undefined] if none. *)
Definition getData (key : CacheKey) (c : QueryCache D) : option D :=
  entries c !! key ≫= entry_data.

(** Modelled from the spec: [cancel(key)] detaches the in-flight request
    of the key, so that its result is dropped when it arrives. *)
Definition cancel (key : CacheKey) (c : QueryCache D) : QueryCache D :=
  {| entries :=
       match inflight c !! key, entries c !! key with
       | Some _, Some e =>
           <[key := withStatus e (match entry_data e with
                                  | Some _ => st_success
                                  | None => st_idle
                                  end)]> (entries c)
       | _, _ => entries c
       end;
     inflight := delete key (inflight c);
     fetched := fetched c; next_request := next_request c;
     notified := notified c |}.

(** [calls] requesters ask for [key], one after the other, before any
    fetch settles. *)
Definition getAll (key : CacheKey) (calls : list (nat * Z * QueryOptions))
    (c : QueryCache D) : QueryCache D :=
  foldl (λ c '(caller, now, opts), (get key caller now opts c).2) c calls.

End Cache.

(* ===================================================================== *)
(** ** The hooks (useDashboardData.ts) *)
(* ===================================================================== *)

(** [queryKeys] *)
Definition queryKeys_users : CacheKey := ["users"].
Definition queryKeys_userById (id : string) : CacheKey := ["users"; id].
Definition queryKeys_transactions : CacheKey := ["transactions"].

(** [useQuery] options: the key, the fetch function (its outcome, since
    the mock data is fixed) and [enabled]. *)
Record UseQueryOptions (D : Type) := {
  queryKey : CacheKey;
  queryFn : completion D;
  enabled : bool;
}.
Arguments queryKey {D} _.
Arguments queryFn {D} _.
Arguments enabled {D} _.

(** "OPTION: enabled - Query only runs when this is true." (the comment on
    [useUser]).  A component that renders the hook asks the cache for the
    key only when the query is enabled; a disabled query stays idle. *)
Definition useQuery {D} (options : UseQueryOptions D) (caller : nat) (now : Z)
    (opts : QueryOptions) (c : QueryCache D)
  : (option D * Status * option error) * QueryCache D :=
  if enabled options then get (queryKey options) caller now opts c
  else ((getData (queryKey options) c, st_idle, None), c).

(** [User], as far as the hooks look at it. *)
Record User := {
  user_id : string;
  user_name : string;
  user_email : string;
}.

(** [useUser(id)], given the mock [users]. *)
Definition useUser (users : list User) (id : option string)
  : UseQueryOptions User :=
  {| queryKey := queryKeys_userById (default "" id);
     queryFn :=
       match List.find (λ u, bool_decide (Some (user_id u) = id)) users with
       | Some user => Normal user
       | None => Throw (Error "User not found")
       end;
     enabled := truthy_opt id |}.

(** [Omit<Transaction, 'id'>] and [Transaction]. *)
Inductive TransactionType := income | expense.
Inductive TransactionStatus := completed | pending | failed.

Record NewTransaction := {
  txn_description : string;
  txn_amount : number;
  txn_type : TransactionType;
  txn_category : string;
  txn_date : number;
  txn_status : TransactionStatus;
}.

Record Transaction := {
  txn_id : string;
  txn_rest : NewTransaction;
}.

(** What the mutation runs in: the query client and the mock
    [transactions] array. *)
Record World := {
  queryClient : QueryCache (list Transaction);
  transactions : list Transaction;
}.

(** The context [onMutate] returns for the rollback. *)
Record MutationContext := {
  previousTransactions : option (list Transaction);
}.

(** [useMutation] options, each callback with the clock reading it makes
    ([Date.now()]) passed in. *)
Record UseMutationOptions := {
  mutationFn : completion () → Z → NewTransaction → World
               → completion Transaction * World;
  onMutate : Z → NewTransaction → World → MutationContext * World;
  onError : error → NewTransaction → option MutationContext → World → World;
  onSettled : World → World;
}.

Definition withClient (w : World) (c : QueryCache (list Transaction)) : World :=
  {| queryClient := c; transactions := transactions w |}.

(** [`temp-${Date.now()}`] and [`txn-${Date.now()}`] *)
Definition stamped (prefix : string) (now : Z) : string :=
  prefix +:+ numberToString (Num now).

Definition useCreateTransaction : UseMutationOptions :=
  {| mutationFn := λ api now newTransaction w,
       (* await simulateApiDelay(500) *)
       match api with
       | Throw e => (Throw e, w)
       | Normal _ =>
           let transaction :=
             {| txn_id := stamped "txn-" now; txn_rest := newTransaction |} in
           (* transactions.unshift(transaction) *)
           (Normal transaction,
            {| queryClient := queryClient w;
               transactions := transaction :: transactions w |})
       end;
     onMutate := λ now newTransaction w,
       (* Cancel outgoing refetches *)
       let c := cancel queryKeys_transactions (queryClient w) in
       (* Snapshot previous value *)
       let previous := getData queryKeys_transactions c in
       (* Optimistically update cache *)
       let c :=
         setData queryKeys_transactions
           (λ old,
              let optimisticTransaction :=
                {| txn_id := stamped "temp-" now;
                   txn_rest := newTransaction |} in
              match old with
              | Some old => optimisticTransaction :: old
              | None => [optimisticTransaction]
              end) c in
       (* Return context for rollback *)
       ({| previousTransactions := previous |}, withClient w c);
     onError := λ err newTransaction context w,
       (* Rollback on error *)
       match context ≫= previousTransactions with
       | Some previous =>
           withClient w
             (setData queryKeys_transactions (λ _, previous) (queryClient w))
       | None => w
       end;
     onSettled := λ w,
       (* Refetch to ensure sync with server *)
       withClient w (invalidate queryKeys_transactions (queryClient w)) |}.

(** One run of a mutation: [onMutate], then [mutationFn]; [onError] if it
    rejected; [onSettled] either way ("onError: Called if mutation fails",
    "onSettled: Called after mutation completes (success or error)").
    [api] is the outcome of the awaited call inside [mutationFn]; [t0] and
    [t1] are the clock readings of [onMutate] and of [mutationFn]. *)
Definition mutate (options : UseMutationOptions) (api : completion ())
    (t0 t1 : Z) (variables : NewTransaction) (w : World) : World :=
  let '(context, w) := onMutate options t0 variables w in
  match mutationFn options api t1 variables w with
  | (Normal _, w) => onSettled options w
  | (Throw err, w) =>
      onSettled options (onError options err variables (Some context) w)
  end.

(* ===================================================================== *)
(** ** A concrete host and concrete tables, for the examples *)
(* ===================================================================== *)

(** A host for ASCII text: letters are lower-cased bytewise,
    [localeCompare] orders by code unit, a date prints as its time value,
    and a numeric string is a decimal integer literal. *)
Definition lowerAscii (ch : ascii) : ascii :=
  let n := nat_of_ascii ch in
  if (65 <=? n)%nat && (n <=? 90)%nat then ascii_of_nat (n + 32) else ch.

Fixpoint asciiLower (s : string) : string :=
  match s with
  | EmptyString => EmptyString
  | String ch s' => String (lowerAscii ch) (asciiLower s')
  end.

Definition codeUnitCompare (s t : string) : number :=
  match String.compare s t with
  | Lt => Num (-1)
  | Eq => Num 0
  | Gt => Num 1
  end.

Definition decimalToNumber (s : string) : number :=
  if String.eqb s "" then Num 0
  else match NilZero.int_of_string s with
       | Some i => Num (Z.of_int i)
       | None => NaN
       end.

Definition asciiEngine : Engine := {|
  toLowerCase := asciiLower;
  localeCompareStr := codeUnitCompare;
  dateToString := numberToString;
  stringToNumber := decimalToNumber;
|}.

Definition mkRow (fields : list (string * value)) : obj :=
  ORow (list_to_map fields).

Definition nameColumn : ColumnDef :=
  {| col_id := "name"; col_accessorKey := Some "name"; col_sortable := true |}.

Definition valueColumn : ColumnDef :=
  {| col_id := "value"; col_accessorKey := Some "value";
     col_sortable := true |}.

(** Three chart rows, the second without a value, and the array of them. *)
Definition chartHeap : heap :=
  [ mkRow [("name", VString "Jan"); ("value", VNumber (Num 4000))];
    mkRow [("name", VString "Feb"); ("value", VNull)];
    mkRow [("name", VString "Mar"); ("value", VNumber (Num 3000))];
    OArray [0; 1; 2]%nat ].

Definition chartProps : DataTableProps :=
  {| data := 3%nat; columns := [nameColumn; valueColumn];
     searchFields := None |}.

(** The revenue rows of the spec's end-to-end scenario. *)
Definition revenueHeap : heap :=
  [ mkRow [("name", VString "Jan"); ("value", VNumber (Num 4000))];
    mkRow [("name", VString "Feb"); ("value", VNumber (Num 3000))];
    OArray [0; 1]%nat ].

Definition revenueProps : DataTableProps :=
  {| data := 2%nat; columns := [nameColumn; valueColumn];
     searchFields := None |}.

(** The two users of the spec's filter example, with a third whose email
    is missing. *)
Definition usersHeap : heap :=
  [ mkRow [("name", VString "Jackson Lee");
           ("email", VString "jackson.lee@email.com")];
    mkRow [("name", VString "Olivia Martin");
           ("email", VString "olivia.martin@email.com")];
    mkRow [("name", VString "Leeroy"); ("email", VNull)];
    OArray [0; 1; 2]%nat ].

Definition usersProps : DataTableProps :=
  {| data := 3%nat; columns := [nameColumn];
     searchFields := Some ["name"; "email"] |}.

(** Two rows with the same value, then a smaller one. *)
Definition tiesHeap : heap :=
  [ mkRow [("name", VString "first"); ("value", VNumber (Num 5))];
    mkRow [("name", VString "second"); ("value", VNumber (Num 5))];
    mkRow [("name", VString "third"); ("value", VNumber (Num 1))];
    OArray [0; 1; 2]%nat ].

(** Rows whose [value] field is of a different type in each, or missing. *)
Definition mixedHeap : heap :=
  [ mkRow [("value", VString "10")];
    mkRow [("value", VNumber (Num 9))];
    mkRow [("value", VDate (Num 1705276800000))];
    mkRow [("value", VBoolean true)];
    mkRow [("value", VNull)];
    mkRow [("name", VString "no value")];
    mkRow [("value", VObject "[object Object]")];
    mkRow [("value", VNumber NaN)];
    mkRow [("value", VDate NaN)];
    OArray [0; 1; 2; 3; 4; 5; 6; 7; 8]%nat ].

Definition sortByValue (d : Direction) : SortState :=
  {| sort_column := Some "value"; sort_direction := d |}.

(** A world in which nothing was fetched yet, and a transaction to add. *)
Definition emptyWorld : World :=
  {| queryClient := emptyCache; transactions := [] |}.

Definition coffee : NewTransaction :=
  {| txn_description := "Coffee"; txn_amount := Num 4; txn_type := expense;
     txn_category := "Food"; txn_date := Num 1705276800000;
     txn_status := pending |}.

(** A world whose cache holds one fetched transaction. *)
Definition salary : Transaction :=
  {| txn_id := "txn-001";
     txn_rest := {| txn_description := "Salary"; txn_amount := Num 5000;
                    txn_type := income; txn_category := "Income";
                    txn_date := Num 1705190400000;
                    txn_status := completed |} |}.

Definition fetchedWorld : World :=
  {| queryClient :=
       setData queryKeys_transactions (λ _, [salary]) emptyCache;
     transactions := [salary] |}.

Definition halfMinute : QueryOptions :=
  {| staleAfter := 30000; retainFor := 300000 |}.

Definition threeCalls : list (nat * Z * QueryOptions) :=
  [(1%nat, 100, halfMinute); (2%nat, 101, halfMinute);
   (3%nat, 105, halfMinute)].

Definition mixedProps : DataTableProps :=
  {| data := 9%nat; columns := [nameColumn; valueColumn];
     searchFields := None |}.

(* ===================================================================== *)
(** ** More of DataTable.tsx: click sequences, row keys, the top-five table *)
(* ===================================================================== *)

(** The header clicks [cs], in order, from state [s]. *)
Definition clickAll (cs : list string) (s : SortState) : SortState :=
  foldl (λ s c, handleSort c s) s cs.

(** [index.toString()] *)
Definition indexToString (index : nat) : string :=
  numberToString (Num (Z.of_nat index)).

(** The React key of a row when no [getRowId] is passed:
    ['id' in row ? String(row.id) : index.toString()]. *)
Definition defaultRowKey {E : Engine} (row : gmap string value) (index : nat)
  : string :=
  match row !! "id" with
  | Some id => ToString id
  | None => indexToString index
  end.

(** [a.slice(start, end)] for [0 <= start <= end]: a new array. *)
Definition Array_slice (a : loc) (start finish : nat) : M loc :=
  l ← readArray a; alloc (OArray (take (finish - start) (drop start l))).

(** The columns of [TransactionsTable] and its call of [DataTable]. *)
Definition transactionColumns : list ColumnDef :=
  [ {| col_id := "description"; col_accessorKey := Some "description";
       col_sortable := true |};
    {| col_id := "amount"; col_accessorKey := Some "amount";
       col_sortable := true |};
    {| col_id := "date"; col_accessorKey := Some "date";
       col_sortable := true |};
    {| col_id := "status"; col_accessorKey := Some "status";
       col_sortable := true |} ].

Definition TransactionsTable (data : loc) : DataTableProps :=
  {| data := data; columns := transactionColumns;
     searchFields := Some ["description"; "category"] |}.

(** DashboardPage.tsx: [<TransactionsTable data={transactions.slice(0, 5)}>],
    followed by the table's own pipeline. *)
Definition recentTransactions {E : Engine} (transactions : loc)
    (searchTerm : string) (sortState : SortState) : M loc :=
  top ← Array_slice transactions 0 5;
  processedData (TransactionsTable top) searchTerm sortState.

(** The sort key of a row whose sorted field holds a finite number or a
    valid date. *)
Definition numericKey (h : heap) (accessor : string) (r : loc) : option Z :=
  match field h r accessor with
  | VNumber (Num z) => Some z
  | VDate (Num t) => Some t
  | _ => None
  end.

Definition numericColumn (h : heap) (accessor : string) (rows : list loc)
  : bool :=
  forallb (λ r, bool_decide (is_Some (numericKey h accessor r))) rows.

(** Lower-casing works letter by letter. *)
Definition lowersLetterwise (E : Engine) : Prop :=
  ∀ s t, toLowerCase (s +:+ t) = toLowerCase s +:+ toLowerCase t.

(* ===================================================================== *)
(** ** UsersTable.tsx: [formatDate] *)
(* ===================================================================== *)

(** [Math.floor(x / d)] for a positive integer [d]: the floor of the exact
    quotient, which the floating-point quotient agrees with for dates less
    than 10^8 days apart. *)
Definition number_floordiv (x : number) (d : Z) : number :=
  match x with NaN => NaN | Num z => Num (z / d) end.

Definition number_eqb (x : number) (z : Z) : bool :=
  match x with NaN => false | Num y => y =? z end.

Definition number_ltb (x : number) (z : Z) : bool :=
  match x with NaN => false | Num y => y <? z end.

Definition msPerDay : Z := 1000 * 60 * 60 * 24.

(** [formatDate(date)], with the clock reading [now] of [new Date()] passed
    in.  [toLocaleDateString date now] stands for the absolute rendering
    [date.toLocaleDateString('en-US', ...)], whose year option depends on
    [now]. *)
Definition formatDate (toLocaleDateString : number → number → string)
    (now date : number) : string :=
  let diffMs := number_sub now date in
  let diffDays := number_floordiv diffMs msPerDay in
  if number_eqb diffDays 0 then "Today"
  else if number_eqb diffDays 1 then "Yesterday"
  else if number_ltb diffDays 7 then numberToString diffDays +:+ " days ago"
  else toLocaleDateString date now.

(* ===================================================================== *)
(** ** More hooks: [useUsers] and [useUpdateUser] *)
(* ===================================================================== *)

(** [o[k]] on an object given by its fields. *)
Definition propOf (o : gmap string value) (k : string) : value :=
  default VUndefined (o !! k).

(** [filters?: { status?: string; role?: string }] *)
Record UserFilters := {
  filter_status : option string;
  filter_role : option string;
}.

(** The [queryFn] of [useUsers(filters)], after the awaited delay. *)
Definition useUsers_queryFn (users : list (gmap string value))
    (filters : option UserFilters) : list (gmap string value) :=
  let filteredUsers := users in
  let filteredUsers :=
    match filters ≫= filter_status with
    | Some status =>
        if truthy status then
          filter (λ u, propOf u "status" = VString status) filteredUsers
        else filteredUsers
    | None => filteredUsers
    end in
  let filteredUsers :=
    match filters ≫= filter_role with
    | Some role =>
        if truthy role then
          filter (λ u, propOf u "role" = VString role) filteredUsers
        else filteredUsers
    | None => filteredUsers
    end in
  filteredUsers.

(** [l.findIndex(p)], [None] standing for [-1]. *)
Fixpoint findIndex {A} (p : A → bool) (l : list A) : option nat :=
  match l with
  | [] => None
  | x :: l' => if p x then Some 0%nat else S <$> findIndex p l'
  end.

(** The [mutationFn] of [useUpdateUser], on the mock [users]; [api] is the
    outcome of the awaited delay. *)
Definition useUpdateUser_mutationFn (api : completion ()) (id : string)
    (updates : gmap string value) (users : list (gmap string value))
  : completion (gmap string value) * list (gmap string value) :=
  match api with
  | Throw e => (Throw e, users)
  | Normal _ =>
      match findIndex (λ u, bool_decide (propOf u "id" = VString id)) users with
      | None => (Throw (Error "User not found"), users)
      | Some userIndex =>
          (* { ...users[userIndex], ...updates } *)
          let updatedUser := updates ∪ default ∅ (users !! userIndex) in
          (Normal updatedUser, <[userIndex := updatedUser]> users)
      end
  end.

(** The [onSuccess] of [useUpdateUser], [id] being [updatedUser.id]. *)
Definition useUpdateUser_onSuccess {D} (id : string) (c : QueryCache D)
  : QueryCache D :=
  invalidate (queryKeys_userById id) (invalidate queryKeys_users c).

(** Three mock users, as objects. *)
Definition mockUsers : list (gmap string value) :=
  [ list_to_map [("id", VString "1"); ("name", VString "Olivia Martin");
                 ("role", VString "admin"); ("status", VString "active")];
    list_to_map [("id", VString "2"); ("name", VString "Jackson Lee");
                 ("role", VString "user"); ("status", VString "active")];
    list_to_map [("id", VString "3"); ("name", VString "Isabella Nguyen");
                 ("role", VString "user"); ("status", VString "inactive")] ].

(** Six transactions in a heap, with amounts and dates. *)
Definition ledgerHeap : heap :=
  [ mkRow [("description", VString "Salary"); ("category", VString "Income");
           ("amount", VNumber (Num 5000)); ("date", VDate (Num 1705276800000))];
    mkRow [("description", VString "Rent"); ("category", VString "Housing");
           ("amount", VNumber (Num 1500)); ("date", VDate (Num 1705190400000))];
    mkRow [("description", VString "Groceries"); ("category", VString "Food");
           ("amount", VNumber (Num 120)); ("date", VDate (Num 1705104000000))];
    mkRow [("description", VString "Freelance"); ("category", VString "Income");
           ("amount", VNumber (Num 800)); ("date", VDate (Num 1705017600000))];
    mkRow [("description", VString "Internet"); ("category", VString "Utilities");
           ("amount", VNumber (Num 60)); ("date", VDate (Num 1704931200000))];
    mkRow [("description", VString "Coffee"); ("category", VString "Food");
           ("amount", VNumber (Num 4)); ("date", VDate (Num 1704844800000))];
    OArray [0; 1; 2; 3; 4; 5]%nat ].

Definition sortByAmount (d : Direction) : SortState :=
  {| sort_column := Some "amount"; sort_direction := d |}.

Definition numericValue (h : heap) (accessor : string) (r : loc) : Z :=
  default 0 (numericKey h accessor r).

(** A world in which a fetch of the transactions is under way. *)
Definition fetchingWorld : World :=
  {| queryClient :=
       (get queryKeys_transactions 1%nat 1000 halfMinute emptyCache).2;
     transactions := [salary] |}.

(** The text of a row whose sorted field holds a string. *)
Definition stringValue (h : heap) (accessor : string) (r : loc) : string :=
  match field h r accessor with VString s => s | _ => "" end.

Definition stringColumn (h : heap) (accessor : string) (rows : list loc)
  : bool :=
  forallb (λ r, isString (field h r accessor)) rows.

(** The collation of the host is a consistent comparator: swapping the
    arguments swaps the sign, and "not after" is transitive. *)
Definition collates (E : Engine) : Prop :=
  (∀ s t, number_negative (localeCompareStr s t)
          = number_pos (localeCompareStr t s))
  ∧ (∀ s t u, number_pos (localeCompareStr s t) = false
              → number_pos (localeCompareStr t u) = false
              → number_pos (localeCompareStr s u) = false).

(* ===================================================================== *)
(** ** The sort of the host *)
(* ===================================================================== *)

(** [c] is a consistent comparator on the elements of [l] (ECMAScript,
    Array.prototype.sort): swapping the arguments swaps the sign, and "not
    after" is transitive.  Only then does the language fix the sorted
    order; otherwise the order is up to the implementation. *)
Definition consistentOn {A} (c : A → A → number) (l : list A) : bool :=
  forallb (λ x,
    forallb (λ y,
      Bool.eqb (number_negative (c x y)) (number_pos (c y x))
      && forallb (λ z,
           implb (negb (number_pos (c x y)) && negb (number_pos (c y z)))
                 (negb (number_pos (c x z)))) l) l) l.

(** A sort the host may supply: whenever the comparator is consistent on
    the array, the array is left holding its stable sorted permutation
    (which [sortBy] computes) and nothing else is written. *)
Definition conformingSort (sort : loc → (loc → loc → M number) → M unit)
  : Prop :=
  ∀ (h : heap) (a : loc) (l : list loc) (cf : loc → loc → M number)
    (c : loc → loc → number),
    h !! a = Some (OArray l) →
    (∀ x y, x ∈ l → y ∈ l → cf x y h = Normal (c x y, h)) →
    consistentOn c l = true →
    sort a cf h = Normal (tt, <[a := OArray (sortBy c l)]> h).

(** [processedData], sorting with the sort [sort] of the host;
    [processedData] itself is [processedDataOn Array_sort]. *)
Definition processedDataOn {E : Engine}
    (sort : loc → (loc → loc → M number) → M unit)
    (props : DataTableProps) (searchTerm : string) (sortState : SortState)
  : M loc :=
  result ← spread (data props);
  result ←
    (if truthy searchTerm then
       let searchLower := toLowerCase searchTerm in
       Array_filter result
         (λ row, someM (fieldMatches searchLower row) (fieldsToSearch props))
     else mret result);
  _ ←
    (match sort_column sortState with
     | Some column =>
         if truthy column then
           match findAccessor props column with
           | Some accessor =>
               if truthy accessor then
                 sort result (comparefn (sort_direction sortState) accessor)
               else mret tt
           | None => mret tt
           end
         else mret tt
     | None => mret tt
     end);
  mret result.

(** What V8 (Node, Chrome) runs on an array of fewer than 64 elements:
    the run at the start of the array is taken as it stands, or reversed
    when it is strictly descending, and the other elements are inserted
    into it one by one at the place a binary search finds. *)
Fixpoint extendRun (comparefn : loc → loc → M number) (descending : bool)
    (previous : loc) (l : list loc) : M nat :=
  match l with
  | [] => mret 0%nat
  | current :: l' =>
      order ← comparefn current previous;
      if bool_decide (number_negative order = descending) then
        n ← extendRun comparefn descending current l'; mret (S n)
      else mret 0%nat
  end.

Definition countAndMakeRun (comparefn : loc → loc → M number) (l : list loc)
  : M (list loc * list loc) :=
  match l with
  | x0 :: x1 :: l' =>
      order ← comparefn x1 x0;
      let descending := number_negative order in
      n ← extendRun comparefn descending x1 l';
      let run := take (2 + n) l in
      mret (if descending then reverse run else run, drop (2 + n) l)
  | _ => mret (l, [])
  end.

Fixpoint binarySearch (fuel : nat) (comparefn : loc → loc → M number)
    (pivot : loc) (sorted : list loc) (left right : nat) : M nat :=
  match fuel with
  | O => mret left
  | S fuel' =>
      if (left <? right)%nat then
        let mid := (left + (right - left) / 2)%nat in
        match sorted !! mid with
        | Some element =>
            order ← comparefn pivot element;
            if number_negative order then
              binarySearch fuel' comparefn pivot sorted left mid
            else binarySearch fuel' comparefn pivot sorted (S mid) right
        | None => mret left
        end
      else mret left
  end.

Fixpoint binaryInsertionSort (comparefn : loc → loc → M number)
    (sorted rest : list loc) : M (list loc) :=
  match rest with
  | [] => mret sorted
  | pivot :: rest' =>
      left ← binarySearch (S (List.length sorted)) comparefn pivot sorted
               0%nat (List.length sorted);
      binaryInsertionSort comparefn
        (take left sorted ++ pivot :: drop left sorted) rest'
  end.

Definition Array_sort_v8 (a : loc) (comparefn : loc → loc → M number)
  : M unit :=
  l ← readArray a;
  '(run, rest) ← countAndMakeRun comparefn l;
  s ← binaryInsertionSort comparefn run rest;
  writeArray a s.

(** The place the bisection finds for [x] in a sorted list: behind the
    elements [x] does not come before. *)
Fixpoint insertPoint {A} (c : A → A → number) (x : A) (s : list A) : nat :=
  match s with
  | [] => 0%nat
  | y :: s' => if number_negative (c x y) then 0%nat else S (insertPoint c x s')
  end.

Definition insertRight {A} (c : A → A → number) (x : A) (s : list A)
  : list A :=
  take (insertPoint c x s) s ++ x :: drop (insertPoint c x s) s.

(** The values 1, 2, NaN, 3 in one column. *)
Definition nanHeap : heap :=
  [ mkRow [("value", VNumber (Num 1))];
    mkRow [("value", VNumber (Num 2))];
    mkRow [("value", VNumber NaN)];
    mkRow [("value", VNumber (Num 3))];
    OArray [0; 1; 2; 3]%nat ].

Definition nanProps : DataTableProps :=
  {| data := 4%nat; columns := [valueColumn]; searchFields := None |}.

(** The values 1, 2, 7, NaN, 5, 3, 5: two rows hold the same 5. *)
Definition fivesHeap : heap :=
  [ mkRow [("value", VNumber (Num 1))];
    mkRow [("value", VNumber (Num 2))];
    mkRow [("value", VNumber (Num 7))];
    mkRow [("value", VNumber NaN)];
    mkRow [("value", VNumber (Num 5))];
    mkRow [("value", VNumber (Num 3))];
    mkRow [("value", VNumber (Num 5))];
    OArray [0; 1; 2; 3; 4; 5; 6]%nat ].

Definition fivesProps : DataTableProps :=
  {| data := 7%nat; columns := [valueColumn]; searchFields := None |}.

(* ===================================================================== *)
(** ** Properties of the sort-state transition *)
(* ===================================================================== *)

Lemma handleSort_other c prev :
  sort_column prev ≠ Some c →
  handleSort c prev = {| sort_column := Some c; sort_direction := asc |}.
Proof.
  intros Hne. unfold handleSort.
  rewrite bool_decide_eq_false_2 by exact Hne. reflexivity.
Qed.

Lemma handleSort_asc c :
  handleSort c {| sort_column := Some c; sort_direction := asc |}
  = {| sort_column := Some c; sort_direction := desc |}.
Proof.
  unfold handleSort; simpl.
  rewrite bool_decide_eq_true_2 by reflexivity. reflexivity.
Qed.

Lemma handleSort_desc c :
  handleSort c {| sort_column := Some c; sort_direction := desc |}
  = {| sort_column := None; sort_direction := asc |}.
Proof.
  unfold handleSort; simpl.
  rewrite bool_decide_eq_true_2 by reflexivity. reflexivity.
Qed.

(** C3. The click transition is the tri-state cycle: a column that is not
    the active one (or no active column) becomes active ascending; the
    active ascending column becomes descending; the active descending
    column clears the sort (no column, direction back to ascending).  So
    three clicks on one column from a cleared state give a cleared state
    again, and the fourth click gives what the first gave. *)
Theorem handleSort_tri_state_cycle (c : string) :
  (∀ prev, sort_column prev ≠ Some c →
     handleSort c prev = {| sort_column := Some c; sort_direction := asc |})
  ∧ handleSort c {| sort_column := Some c; sort_direction := asc |}
    = {| sort_column := Some c; sort_direction := desc |}
  ∧ handleSort c {| sort_column := Some c; sort_direction := desc |}
    = {| sort_column := None; sort_direction := asc |}
  ∧ (∀ d, let cleared := {| sort_column := None; sort_direction := d |} in
       sort_column (handleSort c (handleSort c (handleSort c cleared))) = None
       ∧ handleSort c (handleSort c (handleSort c cleared)) = initialSortState
       ∧ handleSort c (handleSort c (handleSort c (handleSort c cleared)))
         = handleSort c cleared).
Proof.
  split; [exact (handleSort_other c)|].
  split; [exact (handleSort_asc c)|].
  split; [exact (handleSort_desc c)|].
  intros d cleared.
  assert (H1 : handleSort c cleared
               = {| sort_column := Some c; sort_direction := asc |})
    by (apply handleSort_other; discriminate).
  rewrite H1, handleSort_asc, handleSort_desc.
  split; [reflexivity|]. split; [reflexivity|].
  apply handleSort_other. discriminate.
Qed.

Lemma handleSort_tri_state_cycle_witness :
  sort_column {| sort_column := Some "email"; sort_direction := desc |}
  ≠ Some "name"
  ∧ handleSort "name" {| sort_column := Some "email"; sort_direction := desc |}
    = {| sort_column := Some "name"; sort_direction := asc |}.
Proof.
  split; [discriminate|].
  apply (handleSort_tri_state_cycle "name"). discriminate.
Defined.

(* ===================================================================== *)
(** ** The insertion sort on lists *)
(* ===================================================================== *)

Lemma elem_of_insertBy {A} (c : A → A → number) x l z :
  z ∈ insertBy c x l ↔ z = x ∨ z ∈ l.
Proof.
  induction l as [|y l IH]; simpl.
  - rewrite list_elem_of_singleton, elem_of_nil. tauto.
  - destruct (number_pos (c x y)).
    + rewrite !elem_of_cons, IH. tauto.
    + rewrite !elem_of_cons. tauto.
Qed.

Lemma elem_of_sortBy {A} (c : A → A → number) l z :
  z ∈ sortBy c l ↔ z ∈ l.
Proof.
  induction l as [|x l IH]; simpl; [done|].
  rewrite elem_of_insertBy, IH, elem_of_cons. tauto.
Qed.

Section SortByFacts.
Context {A : Type} (c : A → A → number).

(** [insertBy] walks past the elements [x] must follow and stops at the
    first one it need not follow. *)
Lemma insertBy_app_pass x l1 l2 :
  Forall (λ y, number_pos (c x y) = true) l1 →
  insertBy c x (l1 ++ l2) = l1 ++ insertBy c x l2.
Proof.
  induction 1 as [|y l1 Hy _ IH]; simpl; [reflexivity|].
  rewrite Hy. by f_equal.
Qed.

Lemma insertBy_app_stop x l1 l2 :
  match l2 with [] => True | y :: _ => number_pos (c x y) = false end →
  insertBy c x (l1 ++ l2) = insertBy c x l1 ++ l2.
Proof.
  intros Hl2. induction l1 as [|z l1 IH]; simpl.
  - destruct l2 as [|y l2]; simpl; [reflexivity|]. by rewrite Hl2.
  - destruct (number_pos (c x z)); simpl; [by f_equal|reflexivity].
Qed.

Lemma insertBy_split x l :
  ∃ l1 l2, l = l1 ++ l2 ∧ insertBy c x l = l1 ++ x :: l2
    ∧ Forall (λ y, number_pos (c x y) = true) l1.
Proof.
  induction l as [|y l (l1 & l2 & -> & Hins & Hpos)]; simpl.
  - by exists [], [].
  - destruct (number_pos (c x y)) eqn:Hy.
    + exists (y :: l1), l2. rewrite Hins. auto.
    + by exists [], (y :: l1 ++ l2).
Qed.

Lemma insertBy_perm x l : insertBy c x l ≡ₚ x :: l.
Proof.
  destruct (insertBy_split x l) as (l1 & l2 & -> & -> & _).
  by rewrite Permutation_middle.
Qed.

Lemma sortBy_perm l : sortBy c l ≡ₚ l.
Proof.
  induction l as [|x l IH]; simpl; [done|].
  by rewrite insertBy_perm, IH.
Qed.

Lemma sortBy_length l : List.length (sortBy c l) = List.length l.
Proof. by rewrite sortBy_perm. Qed.

Lemma insertBy_sublist x l : l `sublist_of` insertBy c x l.
Proof.
  destruct (insertBy_split x l) as (l1 & l2 & -> & -> & _).
  apply sublist_app; [done|]. by apply sublist_cons.
Qed.

(** The element inserted lands before every element it is not greater
    than. *)
Lemma insertBy_before x b l :
  number_pos (c x b) = false → b ∈ l → before x b (insertBy c x l).
Proof.
  intros Hxb Hb. destruct (insertBy_split x l) as (l1 & l2 & -> & -> & Hpos).
  apply sublist_inserts_l, sublist_skip, singleton_sublist_l.
  apply elem_of_app in Hb as [Hb|Hb]; [|done].
  rewrite Forall_forall in Hpos. specialize (Hpos b Hb). congruence.
Qed.

(** Stability: two elements the comparator does not order the other way
    keep their relative order. *)
Lemma sortBy_stable a b l :
  before a b l → number_pos (c a b) = false → before a b (sortBy c l).
Proof.
  unfold before. intros Hab Hc. induction l as [|x l IH]; simpl.
  - by apply sublist_nil_r in Hab.
  - apply sublist_cons_r in Hab as [Hab|(l' & [= <- <-] & Hb)].
    + etrans; [by apply IH|]. apply insertBy_sublist.
    + apply insertBy_before; [done|].
      apply elem_of_sortBy. by apply singleton_sublist_l.
Qed.

(** On a consistent comparator (a total preorder) the result is sorted;
    with [sortBy_perm] and [sortBy_stable] this determines it, whatever
    stable algorithm the host runs. *)
Lemma insertBy_sorted x l :
  (∀ x y z, number_pos (c x y) = false → number_pos (c y z) = false
            → number_pos (c x z) = false) →
  (∀ x y, number_pos (c x y) = true → number_pos (c y x) = false) →
  StronglySorted (λ a b, number_pos (c a b) = false) l →
  StronglySorted (λ a b, number_pos (c a b) = false) (insertBy c x l).
Proof.
  intros Htrans Htotal. induction 1 as [|y l Hl IH Hy]; simpl.
  - by repeat constructor.
  - destruct (number_pos (c x y)) eqn:Hxy.
    + constructor; [exact IH|]. apply Forall_forall.
      intros z [->|Hz]%elem_of_insertBy; [by apply Htotal|].
      rewrite Forall_forall in Hy. by apply Hy.
    + constructor; [by constructor|]. constructor; [done|].
      eapply Forall_impl; [exact Hy|]. intros z Hz. by eapply Htrans.
Qed.

Lemma sortBy_sorted l :
  (∀ x y z, number_pos (c x y) = false → number_pos (c y z) = false
            → number_pos (c x z) = false) →
  (∀ x y, number_pos (c x y) = true → number_pos (c y x) = false) →
  StronglySorted (λ a b, number_pos (c a b) = false) (sortBy c l).
Proof.
  intros Htrans Htotal. induction l as [|x l IH]; simpl.
  - constructor.
  - by apply insertBy_sorted.
Qed.

Section Nulls.
Context (isnull : A → bool).

(** A comparator that never puts a null after anything, and puts every
    other element after a null, gathers the nulls in front. *)
Lemma sortBy_nulls_low l :
  (∀ x y, isnull x = true → number_pos (c x y) = false) →
  (∀ x y, isnull x = false → isnull y = true → number_pos (c x y) = true) →
  sortBy c l
  = filter (λ x, isnull x = true) l
    ++ sortBy c (filter (λ x, isnull x = false) l).
Proof.
  intros Hnull Hother. induction l as [|x l IH]; simpl; [reflexivity|].
  rewrite !filter_cons, IH. destruct (isnull x) eqn:Hx; simpl.
  - set (rest := _ ++ _). destruct rest as [|y rest]; simpl; [reflexivity|].
    by rewrite Hnull.
  - apply insertBy_app_pass. apply Forall_forall.
    intros y [Hy _]%list_elem_of_filter. by apply Hother.
Qed.

(** A comparator that puts a null after every other element, and nothing
    after a null, gathers the nulls at the end. *)
Lemma sortBy_nulls_high l :
  (∀ x y, isnull x = true → isnull y = false → number_pos (c x y) = true) →
  (∀ x y, isnull y = true → number_pos (c x y) = false) →
  sortBy c l
  = sortBy c (filter (λ x, isnull x = false) l)
    ++ filter (λ x, isnull x = true) l.
Proof.
  intros Hnull Hstop. induction l as [|x l IH]; simpl; [reflexivity|].
  rewrite !filter_cons, IH. destruct (isnull x) eqn:Hx; simpl.
  - rewrite insertBy_app_pass.
    + set (ns := filter (λ y, isnull y = true) l).
      assert (Hns : Forall (λ y, isnull y = true) ns).
      { apply Forall_forall. by intros y [Hy _]%list_elem_of_filter. }
      destruct Hns as [|y ns Hy _]; simpl; [reflexivity|].
      by rewrite Hstop.
    + apply Forall_forall. intros y Hy%elem_of_sortBy.
      apply list_elem_of_filter in Hy as [Hy _]. by apply Hnull.
  - apply insertBy_app_stop.
    set (ns := filter (λ y, isnull y = true) l).
    assert (Hns : Forall (λ y, isnull y = true) ns).
    { apply Forall_forall. by intros y [Hy _]%list_elem_of_filter. }
    destruct Hns as [|y ns Hy _]; [done|]. by apply Hstop.
Qed.

End Nulls.
End SortByFacts.

Lemma sublist_filter_mono {A} (P : A → Prop) `{!∀ x, Decision (P x)}
    (l1 l2 : list A) :
  l1 `sublist_of` l2 → filter P l1 `sublist_of` filter P l2.
Proof.
  induction 1 as [|x l1 l2 _ IH|x l1 l2 _ IH]; [done| |].
  - rewrite !filter_cons. destruct (decide (P x)); [by apply sublist_skip|done].
  - rewrite filter_cons. destruct (decide (P x)); [by apply sublist_cons|done].
Qed.

(* ===================================================================== *)
(** ** [includes] finds exactly the substrings *)
(* ===================================================================== *)

Lemma prefix_append p s :
  String.prefix p s = true ↔ ∃ post, s = p +:+ post.
Proof.
  revert p. induction s as [|b s IH]; intros [|a p]; simpl.
  - split; [by exists ""|done].
  - split; [done|]. intros [post Hp]. discriminate.
  - split; [|done]. intros _. by exists (String b s).
  - destruct (Ascii.ascii_dec a b) as [->|Hne].
    + rewrite IH. split; intros [post Hp]; exists post.
      * by rewrite Hp.
      * by injection Hp.
    + split; [done|]. intros [post Hp]. injection Hp. congruence.
Qed.

Lemma includes_substring s sub : includes s sub = true ↔ substring sub s.
Proof.
  unfold substring. induction s as [|a s IH].
  - change (includes "" sub) with (String.prefix sub "" || false).
    rewrite orb_false_r, prefix_append. split.
    + intros [post Hp]. by exists "", post.
    + intros ([|? ?] & post & Hp); [by exists post|discriminate].
  - change (includes (String a s) sub)
      with (String.prefix sub (String a s) || includes s sub).
    rewrite orb_true_iff, IH, prefix_append. split.
    + intros [[post Hp]|(pre & post & Hp)].
      * by exists "", post.
      * exists (String a pre), post. simpl. by rewrite Hp.
    + intros ([|a' pre] & post & Hp).
      * left. by exists post.
      * right. exists pre, post. by injection Hp.
Qed.

(* ===================================================================== *)
(** ** Running the monad *)
(* ===================================================================== *)

Lemma bind_run {A B} (m : M A) (f : A → M B) h a h1 :
  m h = Normal (a, h1) → (m ≫= f) h = f a h1.
Proof. unfold mbind, M_bind. intros ->. reflexivity. Qed.

Lemma isRowb_app h tl r : isRowb h r = true → isRowb (h ++ tl) r = true.
Proof.
  unfold isRowb. destruct (h !! r) as [o|] eqn:E; [|discriminate].
  rewrite (lookup_app_l_Some _ _ _ _ E). done.
Qed.

Lemma field_app h tl r k : isRowb h r = true → field (h ++ tl) r k = field h r k.
Proof.
  unfold isRowb, field. destruct (h !! r) as [o|] eqn:E; [|discriminate].
  rewrite (lookup_app_l_Some _ _ _ _ E). done.
Qed.

Lemma getProp_run h tl r k :
  isRowb h r = true → getProp r k (h ++ tl) = Normal (field h r k, h ++ tl).
Proof.
  unfold isRowb, field, getProp. destruct (h !! r) as [o|] eqn:E; [|discriminate].
  rewrite (lookup_app_l_Some _ _ _ _ E). destruct o; [discriminate|done].
Qed.

Lemma someM_run {A} (p : A → M bool) (pb : A → bool) (l : list A) h :
  (∀ x, x ∈ l → p x h = Normal (pb x, h)) →
  someM p l h = Normal (existsb pb l, h).
Proof.
  induction l as [|x l IH]; intros Hp; simpl; [reflexivity|].
  rewrite (bind_run _ _ _ _ _ (Hp x ltac:(left))).
  destruct (pb x); simpl; [reflexivity|].
  apply IH. intros y Hy. apply Hp. by right.
Qed.

Lemma filterM_run (p : loc → M bool) (pb : loc → bool) (l : list loc) h :
  (∀ x, x ∈ l → p x h = Normal (pb x, h)) →
  filterM p l h = Normal (filter (λ x, pb x = true) l, h).
Proof.
  induction l as [|x l IH]; intros Hp; simpl; [reflexivity|].
  rewrite (bind_run _ _ _ _ _ (Hp x ltac:(left))).
  rewrite (bind_run _ _ _ _ _ (IH (λ y Hy, Hp y ltac:(by right)))).
  rewrite filter_cons. destruct (pb x); reflexivity.
Qed.

Lemma insertM_run (cf : loc → loc → M number) (c : loc → loc → number) x l h :
  (∀ y, y ∈ l → cf x y h = Normal (c x y, h)) →
  insertM cf x l h = Normal (insertBy c x l, h).
Proof.
  induction l as [|y l IH]; intros Hc; simpl; [reflexivity|].
  rewrite (bind_run _ _ _ _ _ (Hc y ltac:(left))).
  destruct (number_pos (c x y)); [|reflexivity].
  rewrite (bind_run _ _ _ _ _ (IH (λ z Hz, Hc z ltac:(by right)))).
  reflexivity.
Qed.

Lemma sortM_run (cf : loc → loc → M number) (c : loc → loc → number) l h :
  (∀ x y, x ∈ l → y ∈ l → cf x y h = Normal (c x y, h)) →
  sortM cf l h = Normal (sortBy c l, h).
Proof.
  induction l as [|x l IH]; intros Hc; simpl; [reflexivity|].
  rewrite (bind_run _ _ _ _ _
             (IH (λ a b Ha Hb, Hc a b ltac:(by right) ltac:(by right)))).
  apply insertM_run. intros y Hy. apply Hc; [left|right].
  by apply elem_of_sortBy in Hy.
Qed.

(* ===================================================================== *)
(** ** The comparator and the search predicate never throw *)
(* ===================================================================== *)

Section PipelineFacts.
Context {E : Engine}.

(** The [typeof] and [instanceof] tests guard every method call of the
    comparator: whatever the two values are, it returns a number. *)
Lemma compareValues_total d a b :
  compareValues d a b = Normal (cmpValues d a b).
Proof.
  unfold cmpValues.
  destruct a, b; cbn; reflexivity.
Qed.

Lemma comparefn_run h tl d accessor a b :
  isRowb h a = true → isRowb h b = true →
  comparefn d accessor a b (h ++ tl)
  = Normal (cmpRows h d accessor a b, h ++ tl).
Proof.
  intros Ha Hb. unfold comparefn.
  rewrite (bind_run _ _ _ _ _ (getProp_run h tl a accessor Ha)).
  rewrite (bind_run _ _ _ _ _ (getProp_run h tl b accessor Hb)).
  unfold lift, cmpRows. rewrite compareValues_total. reflexivity.
Qed.

Lemma fieldMatches_run h tl searchLower r f :
  isRowb h r = true →
  fieldMatches searchLower r f (h ++ tl)
  = Normal (fieldMatchesb h searchLower r f, h ++ tl).
Proof.
  intros Hr. unfold fieldMatches.
  rewrite (bind_run _ _ _ _ _ (getProp_run h tl r f Hr)). reflexivity.
Qed.

(** *** The array methods on a heap that extends the input heap *)

Lemma holdsRows_inv h d rows :
  holdsRows h d rows = true →
  h !! d = Some (OArray rows) ∧ ∀ r, r ∈ rows → isRowb h r = true.
Proof.
  unfold holdsRows. intros [Hd Hr]%andb_prop. split.
  - by apply bool_decide_eq_true_1 in Hd.
  - intros r Hin. rewrite forallb_forall in Hr. apply Hr.
    by apply list_elem_of_In.
Qed.

Lemma spread_run h a l :
  h !! a = Some (OArray l) →
  spread a h = Normal (List.length h, h ++ [OArray l]).
Proof.
  intros Ha. unfold spread.
  erewrite bind_run; [reflexivity|]. unfold readArray. by rewrite Ha.
Qed.

Lemma Array_filter_run h a l (p : loc → M bool) (pb : loc → bool) :
  h !! a = Some (OArray l) →
  (∀ x, x ∈ l →
     p x (h ++ [OArray []]) = Normal (pb x, h ++ [OArray []])) →
  Array_filter a p h
  = Normal (List.length h, h ++ [OArray (filter (λ x, pb x = true) l)]).
Proof.
  intros Ha Hp. unfold Array_filter.
  erewrite bind_run; [|reflexivity].
  erewrite bind_run; cycle 1.
  { unfold readArray. rewrite (lookup_app_l_Some _ _ _ _ Ha). reflexivity. }
  erewrite bind_run; [|by apply filterM_run].
  erewrite bind_run; cycle 1.
  { unfold writeArray. rewrite list_lookup_middle by reflexivity.
    reflexivity. }
  unfold mret, M_ret. do 2 f_equal.
  rewrite <- (Nat.add_0_r (List.length h)).
  by rewrite insert_app_r.
Qed.

Lemma Array_sort_run h a l (cf : loc → loc → M number)
    (c : loc → loc → number) :
  h !! a = Some (OArray l) →
  (∀ x y, x ∈ l → y ∈ l → cf x y h = Normal (c x y, h)) →
  Array_sort a cf h = Normal (tt, <[a := OArray (sortBy c l)]> h).
Proof.
  intros Ha Hc. unfold Array_sort.
  erewrite bind_run; cycle 1.
  { unfold readArray. rewrite Ha. reflexivity. }
  erewrite bind_run; [|by apply sortM_run].
  unfold writeArray. by rewrite Ha.
Qed.

(** The sort stage, run on the array [r] that the earlier stages left at
    the end of the heap. *)
Lemma sort_stage_run props st h pre kept :
  (∀ x, x ∈ kept → isRowb h x = true) →
  let r := List.length (h ++ pre) in
  let m : M unit :=
    match sort_column st with
    | Some column =>
        if truthy column then
          match findAccessor props column with
          | Some accessor =>
              if truthy accessor then
                Array_sort r (comparefn (sort_direction st) accessor)
              else mret tt
          | None => mret tt
          end
        else mret tt
    | None => mret tt
    end in
  let sorted :=
    match activeAccessor props st with
    | Some accessor => sortBy (cmpRows h (sort_direction st) accessor) kept
    | None => kept
    end in
  m (h ++ pre ++ [OArray kept]) = Normal (tt, h ++ pre ++ [OArray sorted]).
Proof.
  intros Hrows r m sorted. subst m sorted. unfold activeAccessor.
  destruct (sort_column st) as [column|]; [|reflexivity].
  destruct (truthy column); [|reflexivity].
  destruct (findAccessor props column) as [accessor|]; [|reflexivity].
  destruct (truthy accessor); [|reflexivity].
  assert (Hr : (h ++ pre ++ [OArray kept]) !! r = Some (OArray kept)).
  { subst r. rewrite app_assoc. by rewrite list_lookup_middle. }
  erewrite Array_sort_run; [|exact Hr|].
  - do 2 f_equal. subst r. rewrite !app_assoc.
    rewrite <- (Nat.add_0_r (List.length (h ++ pre))).
    by rewrite insert_app_r.
  - intros x y Hx Hy. apply comparefn_run; by apply Hrows.
Qed.

(** Every run of [processedData] on a well-formed input returns; its
    result is a new array that holds [visibleRows], and the cells of the
    input heap are all still there, followed by the new arrays. *)
Lemma processedData_run props searchTerm st h rows :
  holdsRows h (data props) rows = true →
  ∃ r tl,
    processedData props searchTerm st h = Normal (r, h ++ tl)
    ∧ (h ++ tl) !! r
      = Some (OArray (visibleRows h rows props searchTerm st))
    ∧ (List.length h ≤ r)%nat.
Proof.
  intros [Hd Hrows]%holdsRows_inv. unfold processedData, visibleRows.
  erewrite bind_run; [|by apply spread_run].
  destruct (truthy searchTerm).
  - set (kept := filter _ rows).
    erewrite bind_run; cycle 1.
    { apply (Array_filter_run _ _ rows _
               (rowMatchesb h (fieldsToSearch props) (toLowerCase searchTerm))).
      - by rewrite list_lookup_middle.
      - intros x Hx. rewrite <- app_assoc. apply someM_run.
        intros f _. apply fieldMatches_run. by apply Hrows. }
    fold kept.
    pose proof (sort_stage_run props st h [OArray rows] kept) as Hs.
    cbn [app] in Hs. rewrite <- app_assoc. cbn [app].
    erewrite bind_run; cycle 1.
    { apply Hs. intros x Hx. apply Hrows.
      subst kept. by apply list_elem_of_filter in Hx as [_ Hx]. }
    eexists _, _. split; [reflexivity|]. split.
    + change (h ++ [OArray rows; ?o]) with (h ++ [OArray rows] ++ [o]).
      rewrite app_assoc. by rewrite list_lookup_middle.
    + rewrite length_app. lia.
  - erewrite bind_run; [|reflexivity].
    pose proof (sort_stage_run props st h [] rows) as Hs.
    cbn [app] in Hs. rewrite !app_nil_r in Hs.
    erewrite bind_run; cycle 1.
    { apply Hs. exact Hrows. }
    eexists _, _. split; [reflexivity|]. split.
    + by rewrite list_lookup_middle.
    + done.
Qed.

(** *** What the comparator does with null and absent values *)

Lemma cmpValues_asc_null_l a b :
  isNullish a = true → number_pos (cmpValues asc a b) = false.
Proof. destruct a, b; try discriminate; reflexivity. Qed.

Lemma cmpValues_asc_null_r a b :
  isNullish a = false → isNullish b = true →
  number_pos (cmpValues asc a b) = true.
Proof. destruct a, b; try discriminate; reflexivity. Qed.

Lemma cmpValues_desc_null_l a b :
  isNullish a = true → isNullish b = false →
  number_pos (cmpValues desc a b) = true.
Proof. destruct a, b; try discriminate; reflexivity. Qed.

Lemma cmpValues_desc_null_r a b :
  isNullish b = true → number_pos (cmpValues desc a b) = false.
Proof. destruct a, b; try discriminate; reflexivity. Qed.

Lemma number_pos_neg n : number_pos (number_neg n) = number_negative n.
Proof.
  destruct n as [|z]; simpl; [reflexivity|].
  destruct (Z.ltb_spec 0 (- z)), (Z.ltb_spec z 0); lia || reflexivity.
Qed.

(** Descending negates the ascending result, except that a null against
    a non-null value is decided before the negation. *)
Lemma cmpValues_desc a b :
  isNullish a = isNullish b →
  cmpValues desc a b = number_neg (cmpValues asc a b).
Proof. destruct a, b; try discriminate; reflexivity. Qed.

(** A tie is a tie in both directions. *)
Lemma tied_not_pos h accessor a b d :
  tied h accessor a b → number_pos (cmpRows h d accessor a b) = false.
Proof.
  unfold tied, cmpRows. intros [Hpos Hneg]. destruct d; [done|].
  destruct (isNullish (field h a accessor)) eqn:Ha,
           (isNullish (field h b accessor)) eqn:Hb.
  - by apply cmpValues_desc_null_r.
  - destruct (field h a accessor), (field h b accessor);
      discriminate.
  - by apply cmpValues_desc_null_r.
  - rewrite cmpValues_desc by congruence. by rewrite number_pos_neg.
Qed.

End PipelineFacts.

(* ===================================================================== *)
(** ** The table pipeline: filter, sort, frame *)
(* ===================================================================== *)

Lemma before_NoDup {A} (a b : A) l :
  NoDup l → before a b l → ¬ before b a l.
Proof.
  unfold before. induction 1 as [|x l Hx _ IH]; intros Hab Hba.
  - by apply sublist_nil_r in Hab.
  - apply sublist_cons_r in Hab as [Hab|(? & [= <- <-] & Hb)];
      apply sublist_cons_r in Hba as [Hba|(? & [= <- <-] & Ha)].
    + by apply IH.
    + apply Hx. eapply elem_of_sublist; [|exact Hab]. set_solver.
    + apply Hx. eapply elem_of_sublist; [|exact Hba]. set_solver.
    + apply Hx. by apply singleton_sublist_l.
Qed.

(** *** Consistent comparators *)

Lemma consistentOn_spec {A} (c : A → A → number) (l : list A) :
  consistentOn c l = true ↔
  (∀ x y, x ∈ l → y ∈ l → number_negative (c x y) = number_pos (c y x))
  ∧ (∀ x y z, x ∈ l → y ∈ l → z ∈ l →
       number_pos (c x y) = false → number_pos (c y z) = false →
       number_pos (c x z) = false).
Proof.
  unfold consistentOn. rewrite forallb_forall. split.
  - intros H. split.
    + intros x y Hx%list_elem_of_In Hy%list_elem_of_In.
      specialize (H x Hx). rewrite forallb_forall in H.
      apply H, andb_prop in Hy as [Hy _]. by apply Bool.eqb_prop in Hy.
    + intros x y z Hx%list_elem_of_In Hy%list_elem_of_In Hz%list_elem_of_In
        Hxy Hyz.
      specialize (H x Hx). rewrite forallb_forall in H.
      apply H, andb_prop in Hy as [_ Hy]. rewrite forallb_forall in Hy.
      specialize (Hy z Hz). rewrite Hxy, Hyz in Hy. simpl in Hy.
      by apply negb_true_iff in Hy.
  - intros [Hsym Htrans] x Hx%list_elem_of_In. rewrite forallb_forall.
    intros y Hy%list_elem_of_In. apply andb_true_intro. split.
    + rewrite (Hsym x y Hx Hy). apply Bool.eqb_reflx.
    + rewrite forallb_forall. intros z Hz%list_elem_of_In.
      destruct (number_pos (c x y)) eqn:Hxy; [done|].
      destruct (number_pos (c y z)) eqn:Hyz; [done|].
      simpl. by rewrite (Htrans x y z).
Qed.

(** A comparator consistent on a list is consistent on any part of it. *)
Lemma consistentOn_weaken {A} (c : A → A → number) (l l' : list A) :
  (∀ x, x ∈ l' → x ∈ l) →
  consistentOn c l = true → consistentOn c l' = true.
Proof.
  rewrite !consistentOn_spec. intros Hin [Hsym Htrans]. split.
  - intros x y Hx Hy. apply Hsym; by apply Hin.
  - intros x y z Hx Hy Hz. apply Htrans; by apply Hin.
Qed.

(** The insertion sort of the model is one of the sorts the host may
    supply. *)
Lemma Array_sort_conforming : conformingSort Array_sort.
Proof.
  intros h a l cf c Ha Hc _. by apply Array_sort_run.
Qed.

(** *** V8's sort is one of the sorts the host may supply *)

Lemma number_negative_not_pos (n : number) :
  number_negative n = true → number_pos n = false.
Proof.
  destruct n as [|z]; simpl; [done|].
  destruct (Z.ltb_spec z 0), (Z.ltb_spec 0 z); lia || done.
Qed.

Section InsertRight.
Context {A : Type} (c : A → A → number).

(** [insertRight] walks past the elements [x] does not come before. *)
Lemma insertRight_cons x y s :
  insertRight c x (y :: s)
  = if number_negative (c x y) then x :: y :: s else y :: insertRight c x s.
Proof.
  unfold insertRight. simpl. by destruct (number_negative (c x y)).
Qed.

Lemma elem_of_insertRight x s z : z ∈ insertRight c x s ↔ z = x ∨ z ∈ s.
Proof.
  induction s as [|y s IH].
  - change (insertRight c x []) with [x]. rewrite elem_of_cons. tauto.
  - rewrite insertRight_cons.
    destruct (number_negative (c x y)); rewrite !elem_of_cons; [tauto|].
    rewrite IH. tauto.
Qed.

(** Inserting one element from the left and another from the right can be
    done in either order. *)
Lemma insertBy_insertRight a x s :
  consistentOn c (a :: x :: s) = true →
  insertBy c a (insertRight c x s) = insertRight c x (insertBy c a s).
Proof.
  induction s as [|y s IH]; intros Hc;
    pose proof Hc as [Hsym Htrans]%consistentOn_spec.
  - change (insertRight c x []) with [x]. simpl. rewrite insertRight_cons.
    change (insertRight c x []) with [x].
    rewrite (Hsym x a) by (rewrite !elem_of_cons; tauto).
    by destruct (number_pos (c a x)).
  - assert (Ha : a ∈ a :: x :: y :: s) by left.
    assert (Hx : x ∈ a :: x :: y :: s) by (right; left).
    assert (Hy : y ∈ a :: x :: y :: s) by (do 2 right; left).
    assert (IH' : insertBy c a (insertRight c x s)
                  = insertRight c x (insertBy c a s)).
    { apply IH. eapply consistentOn_weaken; [|exact Hc].
      intros u. rewrite !elem_of_cons. tauto. }
    rewrite insertRight_cons. simpl.
    destruct (number_negative (c x y)) eqn:Hxy.
    + simpl. destruct (number_pos (c a y)) eqn:Hay.
      * rewrite insertRight_cons, Hxy.
        assert (Hpos : number_pos (c a x) = true).
        { destruct (number_pos (c a x)) eqn:Hpos; [done|].
          apply number_negative_not_pos in Hxy.
          by rewrite (Htrans a x y Ha Hx Hy Hpos Hxy) in Hay. }
        by rewrite Hpos.
      * rewrite insertRight_cons, (Hsym x a Hx Ha).
        destruct (number_pos (c a x)); [done|].
        by rewrite insertRight_cons, Hxy.
    + simpl. destruct (number_pos (c a y)) eqn:Hay.
      * rewrite insertRight_cons, Hxy. by rewrite IH'.
      * rewrite insertRight_cons.
        assert (Hyx : number_pos (c y x) = false)
          by by rewrite <- (Hsym x y Hx Hy).
        rewrite (Hsym x a Hx Ha), (Htrans a y x Ha Hy Hx Hay Hyx).
        by rewrite insertRight_cons, Hxy.
Qed.

(** Sorting a list with one more element at its end inserts that element
    from the right into the sorted list. *)
Lemma sortBy_snoc p x :
  consistentOn c (p ++ [x]) = true →
  sortBy c (p ++ [x]) = insertRight c x (sortBy c p).
Proof.
  induction p as [|a p IH]; intros Hc; [reflexivity|].
  simpl. rewrite IH; cycle 1.
  { eapply consistentOn_weaken; [|exact Hc]. intros u Hu. by right. }
  apply insertBy_insertRight.
  eapply consistentOn_weaken; [|exact Hc].
  intros u. simpl. rewrite !elem_of_cons, elem_of_sortBy, elem_of_app.
  rewrite list_elem_of_singleton. tauto.
Qed.

(** The insertion sort sorts wherever the comparator is consistent. *)
Lemma sortBy_consistent_sorted l :
  consistentOn c l = true →
  StronglySorted (λ a b, number_pos (c a b) = false) (sortBy c l).
Proof.
  induction l as [|x l IH]; intros Hc; simpl; [constructor|].
  pose proof Hc as [Hsym Htrans]%consistentOn_spec.
  assert (IH' : StronglySorted (λ a b, number_pos (c a b) = false)
                  (sortBy c l)).
  { apply IH. eapply consistentOn_weaken; [|exact Hc]. intros u Hu.
    by right. }
  assert (Hin : ∀ y, y ∈ sortBy c l → y ∈ x :: l).
  { intros y Hy%elem_of_sortBy. by right. }
  clear IH. induction IH' as [|y s Hs IH Hy]; simpl.
  - by repeat constructor.
  - assert (Hyl : y ∈ x :: l) by (apply Hin; left).
    assert (Hxl : x ∈ x :: l) by left.
    destruct (number_pos (c x y)) eqn:Hxy.
    + constructor.
      * apply IH. intros z Hz. apply Hin. by right.
      * apply Forall_forall.
        intros z [->|Hz]%elem_of_insertBy.
        -- apply number_negative_not_pos.
           by rewrite (Hsym y x Hyl Hxl).
        -- rewrite Forall_forall in Hy. by apply Hy.
    + constructor; [by constructor|]. constructor; [done|].
      apply Forall_forall. intros z Hz. rewrite Forall_forall in Hy.
      apply (Htrans x y z); [done|done|apply Hin; by right|done|by apply Hy].
Qed.

(** A sorted list is its own sort. *)
Lemma sortBy_sorted_id l :
  StronglySorted (λ a b, number_pos (c a b) = false) l → sortBy c l = l.
Proof.
  induction 1 as [|x l Hl IH Hx]; [reflexivity|].
  simpl. rewrite IH. destruct Hx as [|y l Hy _]; [reflexivity|].
  simpl. by rewrite Hy.
Qed.

(** The sort of a list that strictly descends is the list reversed. *)
Lemma sortBy_descending l :
  StronglySorted (λ a b, number_pos (c a b) = true) l →
  sortBy c l = reverse l.
Proof.
  induction 1 as [|x l Hl IH Hx]; [reflexivity|].
  simpl. rewrite IH, reverse_cons.
  assert (Hx' : Forall (λ b, number_pos (c x b) = true) (reverse l)).
  { apply Forall_forall. intros b Hb. rewrite elem_of_reverse in Hb.
    rewrite Forall_forall in Hx. by apply Hx. }
  clear -Hx'. induction Hx' as [|y s Hy _ IH']; [reflexivity|].
  simpl. by rewrite Hy, IH'.
Qed.

(** In a sorted list the elements the pivot goes after come first: the
    place a bisection finds is [insertPoint]. *)
Lemma insertPoint_length x s : (insertPoint c x s ≤ List.length s)%nat.
Proof.
  induction s as [|y s IH]; simpl; [lia|].
  destruct (number_negative (c x y)); simpl; lia.
Qed.

Lemma insertPoint_partition x s i y :
  consistentOn c (x :: s) = true →
  StronglySorted (λ a b, number_pos (c a b) = false) s →
  s !! i = Some y →
  number_negative (c x y) = false ↔ (i < insertPoint c x s)%nat.
Proof.
  intros Hc Hs. revert Hc i.
  induction Hs as [|z s Hs IH Hz]; intros Hc i Hi.
  - done.
  - pose proof Hc as [Hsym Htrans]%consistentOn_spec.
    assert (Hx : x ∈ x :: z :: s) by left.
    assert (Hzl : z ∈ x :: z :: s) by (right; left).
    simpl. destruct (number_negative (c x z)) eqn:Hxz.
    + split; [|lia]. intros Hxy. exfalso.
      destruct i as [|i]; simpl in Hi; [injection Hi as <-; congruence|].
      assert (Hys : y ∈ s) by by eapply list_elem_of_lookup_2.
      assert (Hyl : y ∈ x :: z :: s) by by do 2 right.
      assert (Hzy : number_pos (c z y) = false).
      { rewrite Forall_forall in Hz. by apply Hz. }
      rewrite (Hsym x y Hx Hyl) in Hxy.
      rewrite (Hsym x z Hx Hzl) in Hxz.
      by rewrite (Htrans z y x Hzl Hyl Hx Hzy Hxy) in Hxz.
    + destruct i as [|i]; simpl in Hi.
      * injection Hi as <-. split; [lia|done].
      * assert (Hc' : consistentOn c (x :: s) = true).
        { eapply consistentOn_weaken; [|exact Hc].
          intros u. rewrite !elem_of_cons. tauto. }
        rewrite (IH Hc' i Hi). lia.
Qed.

End InsertRight.

(** "Strictly after" is transitive for a consistent comparator. *)
Lemma consistentOn_descends {A} (c : A → A → number) (l : list A) x y z :
  consistentOn c l = true → x ∈ l → y ∈ l → z ∈ l →
  number_pos (c x y) = true → number_pos (c y z) = true →
  number_pos (c x z) = true.
Proof.
  intros [Hsym Htrans]%consistentOn_spec Hx Hy Hz Hxy Hyz.
  destruct (number_pos (c x z)) eqn:Hxz; [done|].
  assert (Hzy : number_pos (c z y) = false).
  { apply number_negative_not_pos. by rewrite (Hsym z y). }
  by rewrite (Htrans x z y Hx Hz Hy Hxz Hzy) in Hxy.
Qed.

Section V8Run.
Context (cf : loc → loc → M number) (c : loc → loc → number) (h : heap).

(** The bisection returns the place that parts the list into the elements
    the pivot does not come before and those it does. *)
Lemma binarySearch_run fuel pivot s left right k :
  (∀ y, y ∈ s → cf pivot y h = Normal (c pivot y, h)) →
  (∀ i y, s !! i = Some y →
     number_negative (c pivot y) = false ↔ (i < k)%nat) →
  (left ≤ k ≤ right)%nat → (right ≤ List.length s)%nat →
  (right - left < fuel)%nat →
  binarySearch fuel cf pivot s left right h = Normal (k, h).
Proof.
  intros Hcf Hk. revert left right.
  induction fuel as [|fuel IH]; intros left right Hlr Hlen Hfuel; [lia|].
  cbn [binarySearch]. destruct (Nat.ltb_spec left right) as [Hlt|Hge].
  - cbv zeta. set (mid := (left + (right - left) / 2)%nat).
    assert (Hmid : (left ≤ mid < right)%nat).
    { subst mid. split; [lia|].
      pose proof (Nat.div_lt (right - left) 2). lia. }
    destruct (lookup_lt_is_Some_2 s mid ltac:(lia)) as [element He].
    rewrite He.
    rewrite (bind_run _ _ _ _ _
               (Hcf element (list_elem_of_lookup_2 _ _ _ He))).
    specialize (Hk mid element He).
    destruct (number_negative (c pivot element)).
    + assert (k ≤ mid)%nat.
      { destruct (Nat.lt_ge_cases mid k) as [Hm|Hm]; [|done].
        by apply Hk in Hm. }
      apply IH; lia.
    + assert (mid < k)%nat by by apply Hk.
      apply IH; lia.
  - unfold mret, M_ret. do 2 f_equal. lia.
Qed.

(** Inserting the rest into a sorted run sorts the whole. *)
Lemma binaryInsertionSort_run p rest :
  (∀ x y, x ∈ p ++ rest → y ∈ p ++ rest → cf x y h = Normal (c x y, h)) →
  consistentOn c (p ++ rest) = true →
  binaryInsertionSort cf (sortBy c p) rest h
  = Normal (sortBy c (p ++ rest), h).
Proof.
  revert p.
  induction rest as [|pivot rest IH]; intros p Hcf Hc;
    cbn [binaryInsertionSort].
  - by rewrite app_nil_r.
  - assert (Hcp : consistentOn c (pivot :: sortBy c p) = true).
    { eapply consistentOn_weaken; [|exact Hc]. intros u.
      rewrite elem_of_cons, elem_of_sortBy, elem_of_app, elem_of_cons.
      tauto. }
    assert (Hcs : consistentOn c (p ++ [pivot]) = true).
    { eapply consistentOn_weaken; [|exact Hc]. intros u.
      rewrite !elem_of_app, !elem_of_cons, elem_of_nil. tauto. }
    erewrite bind_run; cycle 1.
    { apply (binarySearch_run _ _ _ _ _
               (insertPoint c pivot (sortBy c p))).
      - intros y Hy%elem_of_sortBy. apply Hcf.
        + rewrite elem_of_app, elem_of_cons. tauto.
        + rewrite elem_of_app. tauto.
      - intros i y Hi. apply insertPoint_partition; [done| |done].
        apply sortBy_consistent_sorted.
        eapply consistentOn_weaken; [|exact Hc]. intros u Hu.
        rewrite elem_of_app. tauto.
      - split; [lia|apply insertPoint_length].
      - done.
      - lia. }
    fold (insertRight c pivot (sortBy c p)).
    rewrite <- sortBy_snoc by done.
    rewrite (cons_middle pivot p rest), app_assoc.
    apply IH; by rewrite <- app_assoc.
Qed.

(** The run that [extendRun] counts ascends, or strictly descends. *)
Lemma extendRun_run descending previous l :
  (∀ x y, x ∈ previous :: l → y ∈ previous :: l →
     cf x y h = Normal (c x y, h)) →
  consistentOn c (previous :: l) = true →
  ∃ n, extendRun cf descending previous l h = Normal (n, h)
       ∧ StronglySorted (λ a b, number_pos (c a b) = descending)
           (previous :: take n l).
Proof.
  revert previous.
  induction l as [|current l IH]; intros previous Hcf Hc; simpl.
  - exists 0%nat. split; [done|]. by repeat constructor.
  - rewrite (bind_run _ _ _ _ _
               (Hcf current previous ltac:(right; left) ltac:(left))).
    pose proof Hc as [Hsym Htrans]%consistentOn_spec.
    rewrite (Hsym current previous) by (rewrite !elem_of_cons; tauto).
    destruct (bool_decide_reflect
                (number_pos (c previous current) = descending)) as [Hd|Hd].
    + destruct (IH current) as (n & Hrun & Hsorted).
      { intros x y Hx Hy. apply Hcf; by right. }
      { eapply consistentOn_weaken; [|exact Hc]. intros u Hu. by right. }
      rewrite (bind_run _ _ _ _ _ Hrun). exists (S n). split; [done|].
      simpl. constructor; [done|]. constructor; [done|].
      apply StronglySorted_inv in Hsorted as [_ Hall].
      apply Forall_forall. intros z Hz. rewrite Forall_forall in Hall.
      specialize (Hall z Hz).
      assert (Hzl : z ∈ previous :: current :: l).
      { do 2 right. eapply elem_of_sublist; [exact Hz|apply sublist_take]. }
      destruct descending.
      * eapply (consistentOn_descends c _ previous current z Hc);
          [left|right; left|done|done|done].
      * apply (Htrans previous current z);
          [left|right; left|done|done|done].
    + exists 0%nat. split; [done|]. by repeat constructor.
Qed.

(** The run is handed on sorted: as it stands when it ascends, reversed
    when it strictly descends. *)
Lemma countAndMakeRun_run l :
  (∀ x y, x ∈ l → y ∈ l → cf x y h = Normal (c x y, h)) →
  consistentOn c l = true →
  ∃ k, countAndMakeRun cf l h
       = Normal ((sortBy c (take k l), drop k l), h).
Proof.
  intros Hcf Hc. destruct l as [|x0 [|x1 l]].
  - by exists 0%nat.
  - by exists 1%nat.
  - unfold countAndMakeRun.
    rewrite (bind_run _ _ _ _ _
               (Hcf x1 x0 ltac:(right; left) ltac:(left))).
    destruct (extendRun_run (number_negative (c x1 x0)) x1 l)
      as (n & Hrun & Hsorted).
    { intros x y Hx Hy. apply Hcf; by right. }
    { eapply consistentOn_weaken; [|exact Hc]. intros u Hu. by right. }
    rewrite (bind_run _ _ _ _ _ Hrun). exists (2 + n)%nat.
    unfold mret, M_ret. do 2 f_equal.
    pose proof Hc as [Hsym Htrans]%consistentOn_spec.
    assert (Hall : StronglySorted
                     (λ a b, number_pos (c a b) = number_negative (c x1 x0))
                     (take (2 + n) (x0 :: x1 :: l))).
    { simpl. constructor; [done|]. constructor.
      { symmetry. apply Hsym; [right; left|left]. }
      pose proof Hsorted as [_ Hx1]%StronglySorted_inv.
      apply Forall_forall. intros z Hz. rewrite Forall_forall in Hx1.
      specialize (Hx1 z Hz).
      assert (Hzl : z ∈ x0 :: x1 :: l).
      { do 2 right. eapply elem_of_sublist; [exact Hz|apply sublist_take]. }
      assert (H01 : number_pos (c x0 x1) = number_negative (c x1 x0)).
      { symmetry. apply Hsym; [right; left|left]. }
      destruct (number_negative (c x1 x0)).
      - eapply (consistentOn_descends c _ x0 x1 z Hc);
          [left|right; left|done|done|done].
      - apply (Htrans x0 x1 z); [left|right; left|done|done|done]. }
    destruct (number_negative (c x1 x0)).
    + by rewrite sortBy_descending.
    + by rewrite sortBy_sorted_id.
Qed.

Lemma Array_sort_v8_run a l :
  h !! a = Some (OArray l) →
  (∀ x y, x ∈ l → y ∈ l → cf x y h = Normal (c x y, h)) →
  consistentOn c l = true →
  Array_sort_v8 a cf h = Normal (tt, <[a := OArray (sortBy c l)]> h).
Proof.
  intros Ha Hcf Hc. unfold Array_sort_v8.
  erewrite bind_run; cycle 1.
  { unfold readArray. rewrite Ha. reflexivity. }
  destruct (countAndMakeRun_run l Hcf Hc) as (k & Hrun).
  rewrite (bind_run _ _ _ _ _ Hrun).
  erewrite bind_run; cycle 1.
  { apply binaryInsertionSort_run; by rewrite take_drop. }
  rewrite take_drop. unfold writeArray. by rewrite Ha.
Qed.

End V8Run.

(** V8's sort returns what the insertion sort returns wherever the
    comparator is consistent. *)
Lemma Array_sort_v8_conforming : conformingSort Array_sort_v8.
Proof. intros h a l cf c. apply Array_sort_v8_run. Qed.

Section PipelineClaims.
Context {E : Engine}.

Lemma rowMatchesb_Matches h props searchTerm r :
  rowMatchesb h (fieldsToSearch props) (toLowerCase searchTerm) r = true
  ↔ Matches h props searchTerm r.
Proof.
  unfold rowMatchesb, Matches, matchesOn, fieldMatchesb.
  rewrite existsb_exists. split.
  - intros (f & Hf%list_elem_of_In & [Hn Hi]%andb_prop). exists f.
    apply negb_true_iff in Hn. apply includes_substring in Hi.
    split; [|done]. revert Hf. unfold fieldsToSearch, searchable.
    destruct (searchFields props); [done|].
    intros (col & [Ht Hcol]%list_elem_of_filter & Hk)%list_elem_of_omap.
    exists col. split; [done|]. split; [done|].
    rewrite Hk in Ht. unfold truthy_opt, truthy in Ht.
    intros ->. discriminate.
  - intros (f & Hf & Hn & Hi). exists f. split.
    + apply list_elem_of_In. revert Hf. unfold fieldsToSearch, searchable.
      destruct (searchFields props); [done|].
      intros (col & Hcol & Hk & Hne). apply list_elem_of_omap.
      exists col. split; [|done]. apply list_elem_of_filter.
      split; [|done]. rewrite Hk. unfold truthy_opt, truthy.
      apply negb_true_iff. by apply String.eqb_neq.
    + apply andb_true_intro. split; [by apply negb_true_iff|].
      by apply includes_substring.
Qed.

Lemma truthy_false s : truthy s = false ↔ s = "".
Proof.
  unfold truthy. rewrite negb_false_iff. apply String.eqb_eq.
Qed.

(** The rows left by the filter stage of [visibleRows]. *)
Lemma visibleRows_kept h rows props searchTerm st :
  ∃ kept,
    visibleRows h rows props searchTerm st ≡ₚ kept
    ∧ (activeAccessor props st = None
       → visibleRows h rows props searchTerm st = kept)
    ∧ (∀ accessor, activeAccessor props st = Some accessor
       → visibleRows h rows props searchTerm st
         = sortBy (cmpRows h (sort_direction st) accessor) kept)
    ∧ kept `sublist_of` rows
    ∧ (∀ a b, before a b rows → a ∈ kept → b ∈ kept → before a b kept)
    ∧ (searchTerm = "" → kept = rows)
    ∧ (searchTerm ≠ "" →
       kept = filter (λ r, rowMatchesb h (fieldsToSearch props)
                             (toLowerCase searchTerm) r = true) rows).
Proof.
  unfold visibleRows. set (P := λ r, rowMatchesb _ _ _ r = true).
  destruct (truthy searchTerm) eqn:Ht.
  - exists (filter P rows). split; [|split; [|split; [|split; [|split;[|split]]]]].
    + destruct (activeAccessor props st); [apply sortBy_perm|done].
    + by intros ->.
    + by intros accessor ->.
    + apply sublist_filter.
    + intros a b Hab [Ha _]%list_elem_of_filter [Hb _]%list_elem_of_filter.
      unfold before. apply (sublist_filter_mono P) in Hab.
      rewrite !filter_cons, decide_True, decide_True in Hab by done.
      exact Hab.
    + intros ->. discriminate.
    + done.
  - apply truthy_false in Ht as ->.
    exists rows. split; [|split; [|split; [|split; [|split;[|split]]]]];
      try done.
    + destruct (activeAccessor props st); [apply sortBy_perm|done].
    + by intros ->.
    + by intros accessor ->.
Qed.

(** C7. The pipeline is total and has no exception path: on every heap in
    which [data] is an array of row objects, whatever the rows' fields hold
    (null, absent, values of different types in one column), for every
    search text, every sort state and every column list, [processedData]
    returns an array and throws nothing. *)
Theorem processedData_never_throws props searchTerm st h rows :
  holdsRows h (data props) rows = true →
  (∃ r h' out, processedData props searchTerm st h = Normal (r, h')
               ∧ h' !! r = Some (OArray out))
  ∧ ∀ e, processedData props searchTerm st h ≠ Throw e.
Proof.
  intros Hwf.
  destruct (processedData_run props searchTerm st h rows Hwf)
    as (r & tl & Hrun & Hout & Hfresh).
  split; [by eauto 6|]. intros e. by rewrite Hrun.
Qed.

(** C6. The result never has more rows than the input. *)
Theorem processedData_count props searchTerm st h rows :
  holdsRows h (data props) rows = true →
  ∃ out h', produces (processedData props searchTerm st) h out h'
            ∧ (List.length out ≤ List.length rows)%nat.
Proof.
  intros Hwf.
  destruct (processedData_run props searchTerm st h rows Hwf)
    as (r & tl & Hrun & Hout & Hfresh).
  eexists _, _. split; [by exists r|].
  destruct (visibleRows_kept h rows props searchTerm st)
    as (kept & Hperm & _ & _ & Hsub & _).
  rewrite Hperm. by apply sublist_length.
Qed.

(** C8. The pipeline does not write to its input: after the run the input
    heap is still there cell for cell (the [data] array holds the same
    rows in the same order, every row has the same fields), and the array
    returned is a new one. *)
Theorem processedData_frame props searchTerm st h rows :
  holdsRows h (data props) rows = true →
  ∃ r h', processedData props searchTerm st h = Normal (r, h')
          ∧ h `prefix_of` h'
          ∧ h' !! data props = Some (OArray rows)
          ∧ (∀ x, x ∈ rows → h' !! x = h !! x)
          ∧ h !! r = None.
Proof.
  intros Hwf.
  destruct (processedData_run props searchTerm st h rows Hwf)
    as (r & tl & Hrun & Hout & Hfresh).
  apply holdsRows_inv in Hwf as [Hd Hrows].
  exists r, (h ++ tl). split; [done|]. split; [by exists tl|].
  split; [by apply lookup_app_l_Some|]. split.
  - intros x Hx. specialize (Hrows x Hx). unfold isRowb in Hrows.
    destruct (h !! x) eqn:Hhx; [|done]. by apply lookup_app_l_Some.
  - by apply lookup_ge_None.
Qed.

(** C4. With a non-empty search text the result holds exactly the input
    rows that match (each as often as it occurs in the input, the others
    dropped): a row matches when, on one of the searched fields
    ([searchFields] if given, otherwise the accessor keys of the columns
    that have one), its value is neither null nor absent and the
    lower-cased text of the value contains the lower-cased search text.  A
    null or absent value never matches.  With an empty search text every
    row is kept.  The sort only reorders: with no sort active the kept rows
    stand in their input order. *)
Theorem processedData_filter props searchTerm st h rows :
  holdsRows h (data props) rows = true →
  ∃ out h', produces (processedData props searchTerm st) h out h'
    ∧ (searchTerm ≠ "" →
       ∃ dropped, out ++ dropped ≡ₚ rows
         ∧ Forall (Matches h props searchTerm) out
         ∧ Forall (λ r, ¬ Matches h props searchTerm r) dropped)
    ∧ (searchTerm = "" → out ≡ₚ rows)
    ∧ (activeAccessor props st = None → out `sublist_of` rows)
    ∧ (∀ r f, isNullish (field h r f) = true → ¬ matchesOn h searchTerm r f).
Proof.
  intros Hwf.
  destruct (processedData_run props searchTerm st h rows Hwf)
    as (r & tl & Hrun & Hout & Hfresh).
  eexists _, _. split; [by exists r|].
  destruct (visibleRows_kept h rows props searchTerm st)
    as (kept & Hperm & Hnone & _ & Hsub & _ & Hempty & Hfilter).
  split; [|split; [|split]].
  - intros Hne. specialize (Hfilter Hne).
    set (P := λ r, rowMatchesb h (fieldsToSearch props)
                     (toLowerCase searchTerm) r = true) in Hfilter.
    exists (filter (λ r, ¬ P r) rows). split; [|split].
    + rewrite Hperm, Hfilter. apply filter_app_complement.
    + apply Forall_forall. intros x Hx. rewrite Hperm, Hfilter in Hx.
      apply list_elem_of_filter in Hx as [Hx _].
      by apply rowMatchesb_Matches.
    + apply Forall_forall. intros x [Hx _]%list_elem_of_filter Hm.
      apply Hx. by apply rowMatchesb_Matches.
  - intros Hs. by rewrite Hperm, (Hempty Hs).
  - intros Hs. by rewrite (Hnone Hs).
  - intros x f Hnull [Hn _]. congruence.
Qed.

(** *** The pipeline on any sort of the host *)

Lemma number_negative_neg n : number_negative (number_neg n) = number_pos n.
Proof.
  destruct n as [|z]; simpl; [reflexivity|].
  destruct (Z.ltb_spec (- z) 0), (Z.ltb_spec 0 z); lia || reflexivity.
Qed.

(** Descending swaps the sign of every result of the comparator, the
    results on null and absent values included. *)
Lemma cmpValues_desc_signs a b :
  number_pos (cmpValues desc a b) = number_negative (cmpValues asc a b)
  ∧ number_negative (cmpValues desc a b) = number_pos (cmpValues asc a b).
Proof.
  destruct (isNullish a) eqn:Ha, (isNullish b) eqn:Hb.
  - rewrite cmpValues_desc by congruence.
    by rewrite number_pos_neg, number_negative_neg.
  - destruct a, b; try discriminate; split; reflexivity.
  - destruct a, b; try discriminate; split; reflexivity.
  - rewrite cmpValues_desc by congruence.
    by rewrite number_pos_neg, number_negative_neg.
Qed.

(** A comparator consistent on a column sorted ascending is consistent on
    it sorted descending. *)
Lemma consistentOn_direction h accessor l d :
  consistentOn (cmpRows h asc accessor) l = true →
  consistentOn (cmpRows h d accessor) l = true.
Proof.
  destruct d; [done|]. rewrite !consistentOn_spec. unfold cmpRows.
  intros [Hsym Htrans]. split.
  - intros x y Hx Hy.
    rewrite (proj2 (cmpValues_desc_signs _ _)),
            (proj1 (cmpValues_desc_signs _ _)).
    symmetry. by apply Hsym.
  - intros x y z Hx Hy Hz.
    rewrite !(proj1 (cmpValues_desc_signs _ _)).
    rewrite (Hsym x y), (Hsym y z), (Hsym x z) by done.
    intros Hyx Hzy. by apply (Htrans z y x).
Qed.

(** [processedData] is the pipeline on the insertion sort. *)
Lemma processedDataOn_Array_sort props searchTerm st :
  processedDataOn Array_sort props searchTerm st
  = processedData props searchTerm st.
Proof. reflexivity. Qed.

(** The sort stage on a sort of the host: where the comparator is
    consistent on the rows, it leaves what the insertion sort leaves. *)
Lemma sort_stage_run_on sort props st h pre kept :
  conformingSort sort →
  (∀ x, x ∈ kept → isRowb h x = true) →
  (∀ accessor, activeAccessor props st = Some accessor →
     consistentOn (cmpRows h (sort_direction st) accessor) kept = true) →
  let r := List.length (h ++ pre) in
  let m : M unit :=
    match sort_column st with
    | Some column =>
        if truthy column then
          match findAccessor props column with
          | Some accessor =>
              if truthy accessor then
                sort r (comparefn (sort_direction st) accessor)
              else mret tt
          | None => mret tt
          end
        else mret tt
    | None => mret tt
    end in
  let sorted :=
    match activeAccessor props st with
    | Some accessor => sortBy (cmpRows h (sort_direction st) accessor) kept
    | None => kept
    end in
  m (h ++ pre ++ [OArray kept]) = Normal (tt, h ++ pre ++ [OArray sorted]).
Proof.
  intros Hsort Hrows Hcons r m sorted. subst m sorted.
  unfold activeAccessor in *.
  destruct (sort_column st) as [column|]; [|reflexivity].
  destruct (truthy column); [|reflexivity].
  destruct (findAccessor props column) as [accessor|]; [|reflexivity].
  destruct (truthy accessor); [|reflexivity].
  assert (Hr : (h ++ pre ++ [OArray kept]) !! r = Some (OArray kept)).
  { subst r. rewrite app_assoc. by rewrite list_lookup_middle. }
  erewrite Hsort; [|exact Hr| |by apply Hcons].
  - do 2 f_equal. subst r. rewrite !app_assoc.
    rewrite <- (Nat.add_0_r (List.length (h ++ pre))).
    by rewrite insert_app_r.
  - intros x y Hx Hy. apply comparefn_run; by apply Hrows.
Qed.

(** [processedDataOn], on any sort of the host, returns what
    [processedData] returns where the comparator is consistent on the
    rows. *)
Lemma processedDataOn_run sort props searchTerm st h rows :
  conformingSort sort →
  holdsRows h (data props) rows = true →
  (∀ accessor, activeAccessor props st = Some accessor →
     consistentOn (cmpRows h (sort_direction st) accessor) rows = true) →
  ∃ r tl,
    processedDataOn sort props searchTerm st h = Normal (r, h ++ tl)
    ∧ (h ++ tl) !! r
      = Some (OArray (visibleRows h rows props searchTerm st))
    ∧ (List.length h ≤ r)%nat.
Proof.
  intros Hsort [Hd Hrows]%holdsRows_inv Hcons.
  unfold processedDataOn, visibleRows.
  erewrite bind_run; [|by apply spread_run].
  destruct (truthy searchTerm).
  - set (kept := filter _ rows).
    assert (Hkept : ∀ x, x ∈ kept → x ∈ rows).
    { intros x Hx. subst kept. by apply list_elem_of_filter in Hx as [_ Hx]. }
    erewrite bind_run; cycle 1.
    { apply (Array_filter_run _ _ rows _
               (rowMatchesb h (fieldsToSearch props) (toLowerCase searchTerm))).
      - by rewrite list_lookup_middle.
      - intros x Hx. rewrite <- app_assoc. apply someM_run.
        intros f _. apply fieldMatches_run. by apply Hrows. }
    fold kept.
    pose proof (sort_stage_run_on sort props st h [OArray rows] kept Hsort)
      as Hs.
    cbn [app] in Hs. rewrite <- app_assoc. cbn [app].
    erewrite bind_run; cycle 1.
    { apply Hs.
      - intros x Hx. by apply Hrows, Hkept.
      - intros accessor Hacc.
        eapply consistentOn_weaken; [exact Hkept|by apply Hcons]. }
    eexists _, _. split; [reflexivity|]. split.
    + change (h ++ [OArray rows; ?o]) with (h ++ [OArray rows] ++ [o]).
      rewrite app_assoc. by rewrite list_lookup_middle.
    + rewrite length_app. lia.
  - erewrite bind_run; [|reflexivity].
    pose proof (sort_stage_run_on sort props st h [] rows Hsort) as Hs.
    cbn [app] in Hs. rewrite !app_nil_r in Hs.
    erewrite bind_run; cycle 1.
    { apply Hs; [exact Hrows|exact Hcons]. }
    eexists _, _. split; [reflexivity|]. split.
    + by rewrite list_lookup_middle.
    + done.
Qed.

(** C5 (as the code has it). On a column on which the comparator is
    consistent, the sort is stable in both directions, whatever sort the
    host supplies: two rows whose sort keys compare equal, both in the
    result, stand there in the order they have in the input (and, rows
    being distinct objects, not also in the other order).  In particular
    the three states reached by clicking a column header three times
    (ascending, descending, cleared) all show tied rows in their input
    order. *)
Theorem processedData_stable sort props searchTerm h rows a b :
  conformingSort sort →
  holdsRows h (data props) rows = true →
  before a b rows →
  (∀ st,
     (∀ accessor, activeAccessor props st = Some accessor
                  → tied h accessor a b
                    ∧ consistentOn (cmpRows h asc accessor) rows = true) →
     ∃ out h',
       produces (processedDataOn sort props searchTerm st) h out h'
       ∧ (a ∈ out → b ∈ out →
          before a b out ∧ (NoDup rows → ¬ before b a out)))
  ∧ (∀ c,
       (∀ accessor, findAccessor props c = Some accessor
                    → tied h accessor a b
                      ∧ consistentOn (cmpRows h asc accessor) rows = true) →
       Forall (λ st,
                 ∃ out h',
                   produces (processedDataOn sort props searchTerm st) h out h'
                   ∧ (a ∈ out → b ∈ out → before a b out))
         [handleSort c initialSortState;
          handleSort c (handleSort c initialSortState);
          handleSort c (handleSort c (handleSort c initialSortState))]).
Proof.
  intros Hsort Hwf Hab.
  assert (Hgen : ∀ st,
     (∀ accessor, activeAccessor props st = Some accessor
                  → tied h accessor a b
                    ∧ consistentOn (cmpRows h asc accessor) rows = true) →
     ∃ out h',
       produces (processedDataOn sort props searchTerm st) h out h'
       ∧ (a ∈ out → b ∈ out →
          before a b out ∧ (NoDup rows → ¬ before b a out))).
  { intros st Htied.
    destruct (processedDataOn_run sort props searchTerm st h rows Hsort Hwf)
      as (r & tl & Hrun & Hout & Hfresh).
    { intros accessor Hacc. by apply consistentOn_direction, Htied. }
    eexists _, _. split; [by exists r|].
    destruct (visibleRows_kept h rows props searchTerm st)
      as (kept & Hperm & Hnone & Hsome & Hsub & Hbefore & _).
    intros Ha Hb. rewrite Hperm in Ha, Hb.
    assert (Hk : before a b kept) by by apply Hbefore.
    assert (Hord : before a b (visibleRows h rows props searchTerm st)).
    { destruct (activeAccessor props st) as [accessor|] eqn:Hacc.
      - rewrite (Hsome accessor eq_refl). apply sortBy_stable; [done|].
        by apply tied_not_pos, Htied.
      - by rewrite Hnone. }
    split; [done|]. intros Hnd. apply before_NoDup; [|done].
    rewrite Hperm. by eapply sublist_NoDup. }
  split; [exact Hgen|]. intros c Htied.
  assert (Hcol : ∀ st, sort_column st = Some c ∨ sort_column st = None →
     ∃ out h',
       produces (processedDataOn sort props searchTerm st) h out h'
       ∧ (a ∈ out → b ∈ out → before a b out)).
  { intros st Hst. destruct (Hgen st) as (out & h' & Hp & Ho).
    - intros accessor. unfold activeAccessor.
      destruct Hst as [-> | ->]; [|done].
      destruct (truthy c); [|done].
      destruct (findAccessor props c) as [acc|] eqn:Hf; [|done].
      destruct (truthy acc); [|done]. intros [= <-]. by apply Htied.
    - exists out, h'. split; [done|]. intros Ha Hb. by apply Ho. }
  rewrite (handleSort_other c initialSortState) by done.
  rewrite handleSort_asc, handleSort_desc.
  repeat constructor; apply Hcol; simpl; auto.
Qed.

(** C1 (as the code has it). Null and absent values are the smallest sort
    keys and move with the direction: sorting ascending puts the rows whose
    sorted field is null or absent before all the others, sorting
    descending puts them after all the others. *)
Theorem processedData_nulls_by_direction props searchTerm st h rows accessor :
  holdsRows h (data props) rows = true →
  activeAccessor props st = Some accessor →
  ∃ out h', produces (processedData props searchTerm st) h out h'
    ∧ (sort_direction st = asc → NullsFirst h accessor out)
    ∧ (sort_direction st = desc → NullsLast h accessor out).
Proof.
  intros Hwf Hacc.
  destruct (processedData_run props searchTerm st h rows Hwf)
    as (r & tl & Hrun & Hout & Hfresh).
  eexists _, _. split; [by exists r|].
  destruct (visibleRows_kept h rows props searchTerm st)
    as (kept & _ & _ & Hsome & _).
  rewrite (Hsome accessor Hacc).
  set (isnull := λ x, isNullish (field h x accessor)).
  split; intros ->.
  - rewrite (sortBy_nulls_low _ isnull).
    + eexists _, _. split; [reflexivity|]. split; apply Forall_forall.
      * by intros x [Hx _]%list_elem_of_filter.
      * intros x Hx%elem_of_sortBy. apply list_elem_of_filter in Hx as [Hx _].
        unfold nullAt. fold (isnull x). congruence.
    + intros x y Hx. by apply cmpValues_asc_null_l.
    + intros x y Hx Hy. by apply cmpValues_asc_null_r.
  - rewrite (sortBy_nulls_high _ isnull).
    + eexists _, _. split; [reflexivity|]. split; apply Forall_forall.
      * intros x Hx%elem_of_sortBy. apply list_elem_of_filter in Hx as [Hx _].
        unfold nullAt. fold (isnull x). congruence.
      * by intros x [Hx _]%list_elem_of_filter.
    + intros x y Hx Hy. by apply cmpValues_desc_null_l.
    + intros x y Hy. by apply cmpValues_desc_null_r.
Qed.

End PipelineClaims.

(* ===================================================================== *)
(** ** The pipeline on the concrete tables *)
(* ===================================================================== *)

(** The error paths the guards of the comparator close: a method called
    on a receiver of the wrong type throws, and so does a property read on
    something that is not a row. *)
Example localeCompare_of_a_number :
  localeCompare (E := asciiEngine) (VNumber (Num 1)) (VString "a")
  = Throw (TypeError "localeCompare is not a function").
Proof. reflexivity. Qed.

Example getTime_of_a_string :
  getTime (VString "2024-01-15") = Throw (TypeError "getTime is not a function").
Proof. reflexivity. Qed.

Example getProp_of_an_array :
  getProp 3%nat "value" chartHeap = Throw (TypeError "not a row object").
Proof. reflexivity. Qed.

(** The spec's filter example: searching "lee" among Jackson Lee and
    Olivia Martin keeps Jackson Lee; so does "LEE", and the row with a
    null email is searched by its name only. *)
Example search_lee :
  produces (processedData (E := asciiEngine) usersProps "LEE" initialSortState)
    usersHeap [0; 2]%nat (usersHeap ++ [OArray [0; 1; 2]; OArray [0; 2]]%nat).
Proof. exists 5%nat. split; reflexivity. Qed.

(** The spec's end-to-end scenario: the revenue rows Jan 4000, Feb 3000
    sorted by [value] ascending give Feb, Jan. *)
Example sort_revenue_ascending :
  produces (processedData (E := asciiEngine) revenueProps ""
              (sortByValue asc))
    revenueHeap [1; 0]%nat (revenueHeap ++ [OArray [1; 0]%nat]).
Proof. exists 3%nat. split; reflexivity. Qed.

(** C1, refuted as stated: sorting the chart rows by [value] ascending puts
    the row without a value first, before the rows that have one. *)
Lemma processedData_nulls_first_when_ascending :
  produces (processedData (E := asciiEngine) chartProps "" (sortByValue asc))
    chartHeap [1; 2; 0]%nat (chartHeap ++ [OArray [1; 2; 0]%nat])
  ∧ ¬ NullsLast chartHeap "value" [1; 2; 0]%nat.
Proof.
  split; [exists 4%nat; split; reflexivity|].
  intros (vs & ns & Heq & Hvs & Hns). destruct vs as [|v vs].
  - simpl in Heq. subst ns. apply Forall_cons in Hns as [_ Hns].
    apply Forall_cons in Hns as [Hns _]. vm_compute in Hns. discriminate.
  - injection Heq as <- _. apply Forall_cons in Hvs as [Hvs _].
    apply Hvs. reflexivity.
Qed.

Lemma processedData_nulls_by_direction_witness :
  holdsRows chartHeap (data chartProps) [0; 1; 2]%nat = true
  ∧ activeAccessor chartProps (sortByValue desc) = Some "value"
  ∧ ∃ out h',
      produces (processedData (E := asciiEngine) chartProps ""
                  (sortByValue desc)) chartHeap out h'
      ∧ (sort_direction (sortByValue desc) = asc
         → NullsFirst chartHeap "value" out)
      ∧ (sort_direction (sortByValue desc) = desc
         → NullsLast chartHeap "value" out).
Proof.
  split; [reflexivity|]. split; [reflexivity|].
  apply (processedData_nulls_by_direction (E := asciiEngine)
           chartProps "" (sortByValue desc) chartHeap [0; 1; 2]%nat "value");
    reflexivity.
Defined.

Lemma processedData_filter_witness :
  holdsRows usersHeap (data usersProps) [0; 1; 2]%nat = true
  ∧ ∃ out h',
      produces (processedData (E := asciiEngine) usersProps "lee"
                  initialSortState) usersHeap out h'
      ∧ ("lee" ≠ "" →
         ∃ dropped, out ++ dropped ≡ₚ [0; 1; 2]%nat
           ∧ Forall (Matches (E := asciiEngine) usersHeap usersProps "lee") out
           ∧ Forall (λ r, ¬ Matches (E := asciiEngine) usersHeap usersProps
                              "lee" r) dropped)
      ∧ ("lee" = "" → out ≡ₚ [0; 1; 2]%nat)
      ∧ (activeAccessor usersProps initialSortState = None
         → out `sublist_of` [0; 1; 2]%nat)
      ∧ (∀ r f, isNullish (field usersHeap r f) = true
                → ¬ matchesOn (E := asciiEngine) usersHeap "lee" r f).
Proof.
  split; [reflexivity|].
  apply (processedData_filter (E := asciiEngine) usersProps "lee"
           initialSortState usersHeap [0; 1; 2]%nat).
  reflexivity.
Defined.

Lemma processedData_stable_witness :
  (conformingSort Array_sort ∧ conformingSort Array_sort_v8)
  ∧ holdsRows tiesHeap (data chartProps) [0; 1; 2]%nat = true
  ∧ before 0%nat 1%nat [0; 1; 2]%nat
  ∧ (tied (E := asciiEngine) tiesHeap "value" 0%nat 1%nat
     ∧ consistentOn (cmpRows (E := asciiEngine) tiesHeap asc "value")
         [0; 1; 2]%nat = true)
  ∧ (∃ out h',
       produces (processedData (E := asciiEngine) chartProps ""
                   (sortByValue desc)) tiesHeap out h'
       ∧ (0%nat ∈ out → 1%nat ∈ out →
          before 0%nat 1%nat out
          ∧ (NoDup [0; 1; 2]%nat → ¬ before 1%nat 0%nat out)))
  ∧ (∃ out h',
       produces (processedDataOn (E := asciiEngine) Array_sort_v8 chartProps ""
                   (sortByValue desc)) tiesHeap out h'
       ∧ (0%nat ∈ out → 1%nat ∈ out →
          before 0%nat 1%nat out
          ∧ (NoDup [0; 1; 2]%nat → ¬ before 1%nat 0%nat out))).
Proof.
  assert (Hb : before 0%nat 1%nat [0; 1; 2]%nat)
    by (unfold before; repeat constructor).
  assert (Ht : tied (E := asciiEngine) tiesHeap "value" 0%nat 1%nat
               ∧ consistentOn (cmpRows (E := asciiEngine) tiesHeap asc "value")
                   [0; 1; 2]%nat = true)
    by (split; [split|]; reflexivity).
  split; [exact (conj Array_sort_conforming Array_sort_v8_conforming)|].
  split; [reflexivity|]. split; [exact Hb|]. split; [exact Ht|]. split.
  - apply (processedData_stable (E := asciiEngine) Array_sort chartProps ""
             tiesHeap [0; 1; 2]%nat 0%nat 1%nat Array_sort_conforming
             eq_refl Hb).
    intros accessor [= <-]. exact Ht.
  - apply (processedData_stable (E := asciiEngine) Array_sort_v8 chartProps ""
             tiesHeap [0; 1; 2]%nat 0%nat 1%nat Array_sort_v8_conforming
             eq_refl Hb).
    intros accessor [= <-]. exact Ht.
Defined.

(** C5, refuted as stated: the column 1, 2, NaN, 3 sorted descending.  The
    comparator returns 0 on NaN against 3, so the third and the fourth row
    are tied, and it is not consistent on the column (1 and 3 both tie with
    NaN and not with each other); V8's sort puts the fourth row first and
    the third row last. *)
Lemma processedData_reverses_ties_beside_NaN :
  holdsRows nanHeap (data nanProps) [0; 1; 2; 3]%nat = true
  ∧ before 2%nat 3%nat [0; 1; 2; 3]%nat
  ∧ tied (E := asciiEngine) nanHeap "value" 2%nat 3%nat
  ∧ consistentOn (cmpRows (E := asciiEngine) nanHeap asc "value")
      [0; 1; 2; 3]%nat = false
  ∧ (∃ h', produces (processedDataOn (E := asciiEngine) Array_sort_v8
                       nanProps "" (sortByValue desc))
             nanHeap [3; 1; 0; 2]%nat h')
  ∧ before 3%nat 2%nat [3; 1; 0; 2]%nat
  ∧ ¬ before 2%nat 3%nat [3; 1; 0; 2]%nat.
Proof.
  split; [reflexivity|]. split; [unfold before; repeat constructor|].
  split; [split; reflexivity|]. split; [reflexivity|].
  split; [eexists; eexists; split; reflexivity|].
  assert (Hb : before 3%nat 2%nat [3; 1; 0; 2]%nat)
    by (unfold before; repeat constructor).
  split; [exact Hb|]. intros Hab. revert Hb.
  apply before_NoDup; [|exact Hab].
  by apply (bool_decide_unpack _).
Qed.

(** The same on two rows that hold the same number: in the column 1, 2, 7,
    NaN, 5, 3, 5 sorted ascending, V8's sort puts the second 5 before the
    first. *)
Lemma processedData_reverses_duplicates_beside_NaN :
  before 4%nat 6%nat [0; 1; 2; 3; 4; 5; 6]%nat
  ∧ tied (E := asciiEngine) fivesHeap "value" 4%nat 6%nat
  ∧ field fivesHeap 4%nat "value" = field fivesHeap 6%nat "value"
  ∧ (∃ h', produces (processedDataOn (E := asciiEngine) Array_sort_v8
                       fivesProps "" (sortByValue asc))
             fivesHeap [0; 1; 5; 6; 2; 3; 4]%nat h')
  ∧ before 6%nat 4%nat [0; 1; 5; 6; 2; 3; 4]%nat
  ∧ ¬ before 4%nat 6%nat [0; 1; 5; 6; 2; 3; 4]%nat.
Proof.
  split; [unfold before; repeat constructor|].
  split; [split; reflexivity|]. split; [reflexivity|].
  split; [eexists; eexists; split; reflexivity|].
  assert (Hb : before 6%nat 4%nat [0; 1; 5; 6; 2; 3; 4]%nat)
    by (unfold before; repeat constructor).
  split; [exact Hb|]. intros Hab. revert Hb.
  apply before_NoDup; [|exact Hab].
  by apply (bool_decide_unpack _).
Qed.

Lemma processedData_count_witness :
  holdsRows usersHeap (data usersProps) [0; 1; 2]%nat = true
  ∧ ∃ out h',
      produces (processedData (E := asciiEngine) usersProps "martin"
                  (sortByValue asc)) usersHeap out h'
      ∧ (List.length out ≤ List.length [0; 1; 2]%nat)%nat.
Proof.
  split; [reflexivity|].
  apply (processedData_count (E := asciiEngine) usersProps "martin"
           (sortByValue asc) usersHeap [0; 1; 2]%nat).
  reflexivity.
Defined.

Lemma processedData_never_throws_witness :
  holdsRows mixedHeap (data mixedProps) [0; 1; 2; 3; 4; 5; 6; 7; 8]%nat = true
  ∧ (∃ r h' out,
       processedData (E := asciiEngine) mixedProps "1" (sortByValue asc)
         mixedHeap = Normal (r, h')
       ∧ h' !! r = Some (OArray out))
  ∧ ∀ e, processedData (E := asciiEngine) mixedProps "1" (sortByValue asc)
           mixedHeap ≠ Throw e.
Proof.
  split; [reflexivity|].
  apply (processedData_never_throws (E := asciiEngine) mixedProps "1"
           (sortByValue asc) mixedHeap [0; 1; 2; 3; 4; 5; 6; 7; 8]%nat).
  reflexivity.
Defined.

Lemma processedData_frame_witness :
  holdsRows chartHeap (data chartProps) [0; 1; 2]%nat = true
  ∧ ∃ r h',
      processedData (E := asciiEngine) chartProps "a" (sortByValue asc)
        chartHeap = Normal (r, h')
      ∧ chartHeap `prefix_of` h'
      ∧ h' !! data chartProps = Some (OArray [0; 1; 2]%nat)
      ∧ (∀ x, x ∈ [0; 1; 2]%nat → h' !! x = chartHeap !! x)
      ∧ chartHeap !! r = None.
Proof.
  split; [reflexivity|].
  apply (processedData_frame (E := asciiEngine) chartProps "a"
           (sortByValue asc) chartHeap [0; 1; 2]%nat).
  reflexivity.
Defined.

(* ===================================================================== *)
(** ** The query cache: reads, writes, deduplication *)
(* ===================================================================== *)

Section CacheFacts.
Context {D : Type}.
Implicit Types (c : QueryCache D) (key : CacheKey).

Lemma getData_setData key updater c :
  getData key (setData key updater c) = Some (updater (getData key c)).
Proof.
  unfold getData, setData; simpl. rewrite lookup_insert_eq.
  by destruct (entries c !! key).
Qed.

Lemma getData_invalidate keyPrefix key c :
  getData key (invalidate keyPrefix c) = getData key c.
Proof.
  unfold getData, invalidate; simpl. rewrite map_lookup_imap.
  destruct (entries c !! key) as [e|]; simpl; [|done].
  by destruct (bool_decide _).
Qed.

Lemma getData_cancel key' key c :
  getData key' (cancel key c) = getData key' c.
Proof.
  unfold getData, cancel; simpl.
  destruct (inflight c !! key); [|done].
  destruct (entries c !! key) as [e|] eqn:He; [|done].
  destruct (decide (key = key')) as [<-|Hne].
  - rewrite lookup_insert_eq, He. done.
  - by rewrite lookup_insert_ne.
Qed.

(** A request that finds no fresh entry leaves the entry as stale as it
    was, at every later time. *)
Lemma freshAt_get key caller now opts c now' opts' :
  freshAt c key now opts = false →
  freshAt (get key caller now opts c).2 key now' opts'
  = freshAt c key now' opts'.
Proof.
  unfold freshAt, get. destruct (entries c !! key) as [e|] eqn:He.
  - intros ->. simpl. unfold startFetch; simpl.
    destruct (inflight c !! key); simpl; by rewrite lookup_insert_eq.
  - intros _. simpl. unfold startFetch; simpl.
    destruct (inflight c !! key); simpl; by rewrite lookup_insert_eq.
Qed.

(** The first requester starts the fetch. *)
Lemma get_first key caller now opts c :
  inflight c !! key = None →
  freshAt c key now opts = false →
  let c' := (get key caller now opts c).2 in
  inflight c' !! key
  = Some {| request_id := next_request c; subscribers := [caller] |}
  ∧ fetched c' = fetched c ++ [key]
  ∧ notified c' = notified c.
Proof.
  unfold freshAt, get. intros Hin.
  destruct (entries c !! key) as [e|] eqn:He.
  - intros ->. simpl. unfold startFetch; simpl. rewrite Hin; simpl.
    by rewrite lookup_insert_eq.
  - intros _. simpl. unfold startFetch; simpl. rewrite Hin; simpl.
    by rewrite lookup_insert_eq.
Qed.

(** A later requester joins the request in flight: no new fetch. *)
Lemma get_attach key caller now opts c r :
  inflight c !! key = Some r →
  freshAt c key now opts = false →
  let c' := (get key caller now opts c).2 in
  inflight c' !! key
  = Some {| request_id := request_id r;
            subscribers := subscribers r ++ [caller] |}
  ∧ fetched c' = fetched c
  ∧ notified c' = notified c.
Proof.
  unfold freshAt, get. intros Hin.
  destruct (entries c !! key) as [e|] eqn:He.
  - intros ->. simpl. unfold startFetch; simpl. rewrite Hin; simpl.
    by rewrite lookup_insert_eq.
  - intros _. simpl. unfold startFetch; simpl. rewrite Hin; simpl.
    by rewrite lookup_insert_eq.
Qed.

Lemma getAll_attach key calls : ∀ c r,
  inflight c !! key = Some r →
  Forall (λ '(caller, now, opts), freshAt c key now opts = false) calls →
  let c' := getAll key calls c in
  inflight c' !! key
  = Some {| request_id := request_id r;
            subscribers := subscribers r ++ ((λ x, x.1.1) <$> calls) |}
  ∧ fetched c' = fetched c
  ∧ notified c' = notified c.
Proof.
  induction calls as [|[[caller now] opts] calls IH]; intros c r Hin Hstale.
  - simpl. rewrite app_nil_r. by destruct r.
  - apply Forall_cons in Hstale as [Hnow Hstale].
    destruct (get_attach key caller now opts c r Hin Hnow) as (Hin' & Hf & Hn).
    destruct (IH _ _ Hin') as (Hin'' & Hf' & Hn').
    { eapply Forall_impl; [exact Hstale|]. intros [[caller' now'] opts'] Hs.
      by rewrite freshAt_get. }
    unfold getAll in *. simpl in *.
    rewrite Hin'', Hf', Hn', Hf, Hn, <- app_assoc. done.
Qed.

(** C9. Deduplication: when one or more callers ask for a key that has no
    fresh entry, before any fetch settles, they all end up attached to one
    request in flight for the key.  If none was in flight the fetch function
    is called exactly once for all of them (and not at all if one was);
    when the request settles, every caller is handed the same outcome,
    which, resolved, becomes the cached data. *)
Theorem get_deduplicates c key call calls :
  Forall (λ '(caller, now, opts), freshAt c key now opts = false)
    (call :: calls) →
  let c' := getAll key (call :: calls) c in
  let callers := (λ x, x.1.1) <$> (call :: calls) in
  ∃ r, inflight c' !! key = Some r
    ∧ match inflight c !! key with
      | None =>
          fetched c' = fetched c ++ [key]
          ∧ request_id r = next_request c ∧ subscribers r = callers
      | Some r0 =>
          fetched c' = fetched c
          ∧ request_id r = request_id r0
          ∧ subscribers r = subscribers r0 ++ callers
      end
    ∧ ∀ outcome now,
        let c'' := settle key (request_id r) outcome now c' in
        notified c''
        = notified c ++ ((λ s, (s, key, outcome)) <$> subscribers r)
        ∧ Forall (λ s, (s, key, outcome) ∈ notified c'') callers
        ∧ fetched c'' = fetched c'
        ∧ inflight c'' !! key = None
        ∧ ∀ d, outcome = Normal d → getData key c'' = Some d.
Proof.
  intros Hstale c' callers.
  assert (Hr : ∃ r, inflight c' !! key = Some r
    ∧ match inflight c !! key with
      | None =>
          fetched c' = fetched c ++ [key]
          ∧ request_id r = next_request c ∧ subscribers r = callers
      | Some r0 =>
          fetched c' = fetched c
          ∧ request_id r = request_id r0
          ∧ subscribers r = subscribers r0 ++ callers
      end
    ∧ notified c' = notified c).
  { subst c' callers. destruct (inflight c !! key) as [r0|] eqn:Hin.
    - destruct (getAll_attach key (call :: calls) c r0 Hin Hstale)
        as (Hin' & Hf & Hn).
      eexists. split; [exact Hin'|]. by rewrite Hf, Hn.
    - destruct call as [[caller now] opts].
      apply Forall_cons in Hstale as [Hnow Hstale].
      destruct (get_first key caller now opts c Hin Hnow) as (Hin1 & Hf1 & Hn1).
      destruct (getAll_attach key calls _ _ Hin1) as (Hin2 & Hf2 & Hn2).
      { eapply Forall_impl; [exact Hstale|].
        intros [[caller' now'] opts'] Hs. by rewrite freshAt_get. }
      change (getAll key ((caller, now, opts) :: calls) c)
        with (getAll key calls (get key caller now opts c).2).
      eexists. split; [exact Hin2|]. by rewrite Hf2, Hf1, Hn2, Hn1. }
  destruct Hr as (r & Hin' & Hcase & Hn). exists r.
  split; [exact Hin'|]. split; [exact Hcase|].
  intros outcome now' c''.
  assert (Hnot : notified c''
            = notified c ++ ((λ s, (s, key, outcome)) <$> subscribers r)).
  { subst c''. unfold settle. rewrite Hin', Nat.eqb_refl. simpl.
    by rewrite Hn. }
  split; [exact Hnot|]. split.
  { apply Forall_forall. intros s Hs. rewrite Hnot.
    apply elem_of_app. right. apply list_elem_of_fmap. exists s.
    split; [done|]. destruct (inflight c !! key) as [r0|].
    - destruct Hcase as (_ & _ & ->). apply elem_of_app. by right.
    - by destruct Hcase as (_ & _ & ->). }
  subst c''. unfold settle. rewrite Hin', Nat.eqb_refl. simpl.
  split; [done|]. split; [by rewrite lookup_delete_eq|].
  intros d ->. unfold getData; simpl. by rewrite lookup_insert_eq.
Qed.

End CacheFacts.

Lemma get_deduplicates_witness :
  Forall (λ '(caller, now, opts),
            freshAt (emptyCache (D := nat)) queryKeys_users now opts = false)
    threeCalls
  ∧ fetched (getAll queryKeys_users threeCalls (emptyCache (D := nat)))
    = [queryKeys_users]
  ∧ notified (settle queryKeys_users 0 (Normal 7%nat) 900
                (getAll queryKeys_users threeCalls emptyCache))
    = [(1%nat, queryKeys_users, Normal 7%nat);
       (2%nat, queryKeys_users, Normal 7%nat);
       (3%nat, queryKeys_users, Normal 7%nat)].
Proof.
  assert (Hstale : Forall (λ '(caller, now, opts),
              freshAt (emptyCache (D := nat)) queryKeys_users now opts = false)
      threeCalls) by (repeat constructor).
  destruct (get_deduplicates emptyCache queryKeys_users
              (1%nat, 100, halfMinute)
              [(2%nat, 101, halfMinute); (3%nat, 105, halfMinute)]
              Hstale) as (r & Hin & (Hf & Hid & Hsubs) & Hsettle).
  destruct (Hsettle (Normal 7%nat) 900) as (Hn & _).
  rewrite Hid, Hsubs in Hn.
  split; [exact Hstale|]. split; [exact Hf|exact Hn].
Defined.

(* ===================================================================== *)
(** ** The hooks: the optimistic update and the disabled query *)
(* ===================================================================== *)

(** The optimistic transaction [onMutate] writes at clock reading [t0]. *)
Lemma onMutate_optimistic t0 newTransaction w :
  getData queryKeys_transactions
    (queryClient (onMutate useCreateTransaction t0 newTransaction w).2)
  = Some ({| txn_id := stamped "temp-" t0; txn_rest := newTransaction |}
          :: default [] (getData queryKeys_transactions (queryClient w)))
  ∧ previousTransactions (onMutate useCreateTransaction t0 newTransaction w).1
    = getData queryKeys_transactions (queryClient w).
Proof.
  simpl. rewrite getData_setData, getData_cancel.
  by destruct (getData queryKeys_transactions (queryClient w)).
Qed.

(** C2 (as the code has it). A mutation whose [mutationFn] rejects, started
    on any cache.  When the cache holds transactions before the mutation,
    the cached data after settlement is exactly the snapshot taken before
    the optimistic write: the optimistic transaction was written and is gone
    again.  When the cache holds no data for the key, the rollback is
    skipped: the optimistic transaction was written and is, after
    settlement, the only cached transaction.  In both cases the mock
    [transactions] are untouched. *)
Theorem useCreateTransaction_rolls_back w newTransaction t0 t1 e :
  let optimistic :=
    {| txn_id := stamped "temp-" t0; txn_rest := newTransaction |} in
  let w1 := (onMutate useCreateTransaction t0 newTransaction w).2 in
  let w' := mutate useCreateTransaction (Throw e) t0 t1 newTransaction w in
  (∀ previous,
     getData queryKeys_transactions (queryClient w) = Some previous →
     getData queryKeys_transactions (queryClient w1)
     = Some (optimistic :: previous)
     ∧ getData queryKeys_transactions (queryClient w') = Some previous)
  ∧ (getData queryKeys_transactions (queryClient w) = None →
     getData queryKeys_transactions (queryClient w1) = Some [optimistic]
     ∧ getData queryKeys_transactions (queryClient w') = Some [optimistic])
  ∧ transactions w' = transactions w.
Proof.
  intros optimistic w1 w'.
  destruct (onMutate_optimistic t0 newTransaction w) as [Hopt Hctx].
  fold w1 in Hopt. subst w'. unfold mutate.
  destruct (onMutate useCreateTransaction t0 newTransaction w)
    as [context w2] eqn:Hm.
  assert (Htx : transactions w2 = transactions w)
    by (injection Hm as _ <-; reflexivity).
  simpl in Hctx, w1. subst w1.
  split; [|split].
  - intros previous Hprev. rewrite Hprev in Hopt, Hctx.
    split; [exact Hopt|]. simpl. rewrite Hctx. simpl.
    by rewrite getData_invalidate, getData_setData.
  - intros Hnone. rewrite Hnone in Hopt, Hctx.
    split; [exact Hopt|]. simpl. rewrite Hctx. simpl.
    by rewrite getData_invalidate.
  - simpl. by destruct (previousTransactions context).
Qed.

Lemma useCreateTransaction_rolls_back_witness :
  (getData queryKeys_transactions (queryClient fetchedWorld) = Some [salary]
   ∧ getData queryKeys_transactions
       (queryClient (mutate useCreateTransaction (Throw (Error "offline"))
                       1700 1750 coffee fetchedWorld))
     = Some [salary])
  ∧ (getData queryKeys_transactions (queryClient emptyWorld) = None
     ∧ getData queryKeys_transactions
         (queryClient (mutate useCreateTransaction (Throw (Error "offline"))
                         1700 1750 coffee emptyWorld))
       = Some [{| txn_id := stamped "temp-" 1700; txn_rest := coffee |}]).
Proof.
  split; (split; [reflexivity|]).
  - destruct (useCreateTransaction_rolls_back fetchedWorld coffee 1700 1750
                (Error "offline")) as (Hsome & _ & _).
    destruct (Hsome [salary] eq_refl) as [_ Hback]. exact Hback.
  - destruct (useCreateTransaction_rolls_back emptyWorld coffee 1700 1750
                (Error "offline")) as (_ & Hnone & _).
    destruct (Hnone eq_refl) as [_ Hkept]. exact Hkept.
Defined.

(** C2, refuted as stated: on a cache that holds no transactions yet, the
    snapshot is [undefined], the guard of [onError] skips the rollback, and
    the optimistic transaction stays in the cache after the rejected
    mutation has settled. *)
Lemma useCreateTransaction_keeps_optimistic_on_empty_cache :
  getData queryKeys_transactions (queryClient emptyWorld) = None
  ∧ getData queryKeys_transactions
      (queryClient (mutate useCreateTransaction (Throw (Error "offline"))
                      1700 1750 coffee emptyWorld))
    = Some [{| txn_id := "temp-1700"; txn_rest := coffee |}].
Proof. split; reflexivity. Qed.

(** C10. [useUser(undefined)] is a disabled query: rendering it, however
    often and on whatever cache, asks the cache for nothing, so the fetch
    function is never called and no entry is created or set to an error.
    Called, the fetch function would have thrown: no user has an
    undefined id. *)
Theorem useUser_undefined_never_fetches (users : list User)
    (renders : list (nat * Z * QueryOptions)) (c : QueryCache User) :
  enabled (useUser users None) = false
  ∧ queryFn (useUser users None) = Throw (Error "User not found")
  ∧ Forall (λ '(caller, now, opts),
              (useQuery (useUser users None) caller now opts c).2 = c)
      renders
  ∧ let c' :=
      foldl (λ c '(caller, now, opts),
               (useQuery (useUser users None) caller now opts c).2) c renders
    in c' = c ∧ fetched c' = fetched c ∧ inflight c' = inflight c
       ∧ entries c' = entries c.
Proof.
  split; [reflexivity|]. split.
  { unfold useUser; cbn [queryFn].
    induction users as [|u users IH]; simpl; [reflexivity|exact IH]. }
  split.
  { apply Forall_forall. by intros [[caller now] opts] _. }
  assert (Hc : foldl (λ c '(caller, now, opts),
               (useQuery (useUser users None) caller now opts c).2) c renders
               = c).
  { induction renders as [|[[caller now] opts] renders IH]; simpl; done. }
  cbv zeta. by rewrite Hc.
Qed.

(** With an id, the same hook is enabled and its first render fetches. *)
Example useUser_with_id_fetches :
  fetched (useQuery (useUser [] (Some "1")) 1%nat 100 halfMinute emptyCache).2
  = [queryKeys_userById "1"].
Proof. reflexivity. Qed.

(* ===================================================================== *)
(** ** Click sequences on the table headers *)
(* ===================================================================== *)

Lemma clickAll_snoc cs c s :
  clickAll (cs ++ [c]) s = handleSort c (clickAll cs s).
Proof. unfold clickAll. by rewrite foldl_app. Qed.

Lemma handleSort_cases c prev :
  (sort_column prev ≠ Some c
   ∧ handleSort c prev = {| sort_column := Some c; sort_direction := asc |})
  ∨ (prev = {| sort_column := Some c; sort_direction := asc |}
     ∧ handleSort c prev = {| sort_column := Some c; sort_direction := desc |})
  ∨ (prev = {| sort_column := Some c; sort_direction := desc |}
     ∧ handleSort c prev = {| sort_column := None; sort_direction := asc |}).
Proof.
  destruct prev as [col d].
  destruct (decide (col = Some c)) as [->|Hne].
  - destruct d.
    + right; left. split; [done|]. apply handleSort_asc.
    + right; right. split; [done|]. apply handleSort_desc.
  - left. split; [done|]. by apply handleSort_other.
Qed.

(** X1. Whatever headers are clicked, starting from the initial state: a
    cleared sort always has direction ascending; the active column, if
    any, is the header clicked last; and a descending sort is only reached
    by clicking the same header twice in a row. *)
Theorem clickAll_reachable (cs : list string) :
  let s := clickAll cs initialSortState in
  (sort_column s = None → sort_direction s = asc)
  ∧ (∀ c, sort_column s = Some c → ∃ cs', cs = cs' ++ [c])
  ∧ (∀ c, s = {| sort_column := Some c; sort_direction := desc |}
          → ∃ cs', cs = cs' ++ [c; c]).
Proof.
  induction cs as [|c cs IH] using rev_ind; simpl.
  - split; [done|]. split; intros c Hc; inversion Hc.
  - rewrite clickAll_snoc. destruct IH as (_ & IHlast & _).
    destruct (handleSort_cases c (clickAll cs initialSortState))
      as [[_ ->]|[[Hprev ->]|[_ ->]]]; simpl.
    + split; [discriminate|]. split.
      * intros c' [= <-]. by exists cs.
      * discriminate.
    + split; [discriminate|]. split.
      * intros c' [= <-]. by exists cs.
      * intros c' [= <-].
        destruct (IHlast c) as [cs' ->]; [by rewrite Hprev|].
        exists cs'. by rewrite <- app_assoc.
    + split; [done|]. split; discriminate.
Qed.

(** X2. From any state in which a column is active, in either direction,
    three clicks on the header of that column close the cycle: the state
    after them is the state before them. *)
Theorem handleSort_period_three (c : string) (s : SortState) :
  sort_column s = Some c →
  handleSort c (handleSort c (handleSort c s)) = s.
Proof.
  destruct s as [col d]; simpl. intros ->. destruct d.
  - rewrite handleSort_asc, handleSort_desc.
    by rewrite handleSort_other.
  - rewrite handleSort_desc.
    rewrite (handleSort_other c {| sort_column := None; sort_direction := asc |})
      by done.
    apply handleSort_asc.
Qed.

Lemma handleSort_period_three_witness :
  sort_column {| sort_column := Some "amount"; sort_direction := desc |}
  = Some "amount"
  ∧ handleSort "amount" (handleSort "amount" (handleSort "amount"
      {| sort_column := Some "amount"; sort_direction := desc |}))
    = {| sort_column := Some "amount"; sort_direction := desc |}.
Proof.
  split; [reflexivity|].
  apply (handleSort_period_three "amount"
           {| sort_column := Some "amount"; sort_direction := desc |}).
  reflexivity.
Defined.

(* ===================================================================== *)
(** ** The pipeline beyond the claims: skipped sorts, narrowing searches,
       numeric columns *)
(* ===================================================================== *)

Section SortByKeys.
Context {A : Type}.

Lemma insertBy_ext_in (c c' : A → A → number) x l :
  (∀ y, y ∈ l → number_pos (c x y) = number_pos (c' x y)) →
  insertBy c x l = insertBy c' x l.
Proof.
  induction l as [|y l IH]; intros Hc; simpl; [reflexivity|].
  rewrite <- (Hc y) by left. rewrite IH; [reflexivity|].
  intros z Hz. apply Hc. by right.
Qed.

(** Only the sign of the comparator on the elements of the list matters. *)
Lemma sortBy_ext_in (c c' : A → A → number) l :
  (∀ a b, a ∈ l → b ∈ l → number_pos (c a b) = number_pos (c' a b)) →
  sortBy c l = sortBy c' l.
Proof.
  induction l as [|x l IH]; intros Hc; simpl; [reflexivity|].
  rewrite <- IH by (intros a b Ha Hb; apply Hc; by right).
  apply insertBy_ext_in. intros y Hy%elem_of_sortBy.
  apply Hc; [left|by right].
Qed.

(** A comparator that orders by an integer key sorts by that key. *)
Lemma sortBy_key_sorted (c : A → A → number) (key : A → Z) l :
  (∀ a b, a ∈ l → b ∈ l → number_pos (c a b) = (key b <? key a)) →
  StronglySorted Z.le (key <$> sortBy c l).
Proof.
  intros Hc.
  rewrite (sortBy_ext_in c (λ a b, Num (key a - key b))).
  - eapply (StronglySorted_fmap key
              (λ a b, number_pos (Num (key a - key b)) = false)).
    + intros x y; simpl. intros Hxy%Z.ltb_ge. lia.
    + apply sortBy_sorted; simpl.
      * intros x y z Hxy%Z.ltb_ge Hyz%Z.ltb_ge. apply Z.ltb_ge. lia.
      * intros x y Hxy%Z.ltb_lt. apply Z.ltb_ge. lia.
  - intros a b Ha Hb. rewrite (Hc a b Ha Hb). simpl.
    destruct (Z.ltb_spec (key b) (key a)), (Z.ltb_spec 0 (key a - key b));
      lia || reflexivity.
Qed.

(** With pairwise distinct keys, the opposite comparator returns the
    reversed list. *)
Lemma sortBy_key_reverse (c c' : A → A → number) (key : A → Z) l :
  NoDup (key <$> l) →
  (∀ a b, a ∈ l → b ∈ l → number_pos (c a b) = (key b <? key a)) →
  (∀ a b, a ∈ l → b ∈ l → number_pos (c' a b) = (key a <? key b)) →
  sortBy c' l = reverse (sortBy c l).
Proof.
  intros Hnd Hc Hc'.
  apply (StronglySorted_unique_strong (λ a b, key b ≤ key a)).
  - intros x1 x2 Hx1%elem_of_sortBy Hx2 H12 H21.
    rewrite elem_of_reverse, elem_of_sortBy in Hx2.
    assert (Hk : key x1 = key x2) by lia. clear H12 H21.
    revert Hnd Hx1 Hx2 Hk. clear. induction l as [|y l IH]; [by inversion 2|].
    rewrite fmap_cons, NoDup_cons, !elem_of_cons.
    intros [Hy Hnd] [->|Hx1] [->|Hx2] Hk; [done| | |by apply IH].
    + exfalso. apply Hy. rewrite Hk. apply list_elem_of_fmap. eauto.
    + exfalso. apply Hy. rewrite <- Hk. apply list_elem_of_fmap. eauto.
  - assert (Hs : StronglySorted Z.le ((λ a, - key a) <$> sortBy c' l)).
    { apply sortBy_key_sorted. intros a b Ha Hb. rewrite (Hc' a b Ha Hb).
      destruct (Z.ltb_spec (key a) (key b)), (Z.ltb_spec (- key b) (- key a));
        lia || reflexivity. }
    revert Hs. generalize (sortBy c' l). clear. intros l0.
    induction l0 as [|x l0 IH]; [constructor|].
    rewrite fmap_cons, !StronglySorted_cons, Forall_fmap.
    intros [Hx Hs]. split; [|by apply IH].
    eapply Forall_impl; [exact Hx|]. simpl. intros y. lia.
  - assert (Hs : StronglySorted Z.le (key <$> sortBy c l))
      by by apply sortBy_key_sorted.
    revert Hs. generalize (sortBy c l). clear. intros l0.
    induction l0 as [|x l0 IH]; [constructor|].
    rewrite fmap_cons, StronglySorted_cons, Forall_fmap, reverse_cons.
    intros [Hx Hs]. apply StronglySorted_app. split; [|split].
    + intros x1 x2 Hx1 ->%list_elem_of_singleton.
      rewrite elem_of_reverse in Hx1. rewrite Forall_forall in Hx. specialize (Hx x1 Hx1). simpl in Hx. lia.
    + by apply IH.
    + by repeat constructor.
  - by rewrite reverse_Permutation, !sortBy_perm.
Qed.

End SortByKeys.

Section PipelineExtras.
Context {E : Engine}.

Lemma cmpRows_numeric h accessor a b x y :
  numericKey h accessor a = Some x →
  numericKey h accessor b = Some y →
  number_pos (cmpRows h asc accessor a b) = (y <? x)
  ∧ number_pos (cmpRows h desc accessor a b) = (x <? y).
Proof.
  unfold cmpRows, numericKey.
  destruct (field h a accessor) as [| | |[|x']| |[|x']|]; try discriminate;
    destruct (field h b accessor) as [| | |[|y']| |[|y']|]; try discriminate;
    intros [= ->] [= ->];
    unfold cmpValues, compareValues, js_gt, js_lt, IsLessThan; simpl;
    destruct (Z.ltb_spec x y), (Z.ltb_spec y x); simpl;
    try destruct (Z.ltb_spec 0 (x - y)); try destruct (Z.ltb_spec 0 (- (x - y)));
    split; lia || reflexivity.
Qed.

Lemma numericColumn_inv h accessor rows r :
  numericColumn h accessor rows = true → r ∈ rows →
  numericKey h accessor r = Some (numericValue h accessor r).
Proof.
  unfold numericColumn, numericValue. rewrite forallb_forall.
  intros Hall Hr%list_elem_of_In. specialize (Hall r Hr).
  apply bool_decide_eq_true_1 in Hall as [z ->]. reflexivity.
Qed.

Lemma filter_sublist_impl {A} (P Q : A → Prop)
    `{!∀ x, Decision (P x)} `{!∀ x, Decision (Q x)} (l : list A) :
  (∀ x, P x → Q x) → filter P l `sublist_of` filter Q l.
Proof.
  intros HPQ. induction l as [|x l IH]; [done|].
  rewrite !filter_cons. destruct (decide (P x)) as [HP|HP].
  - rewrite decide_True by auto. by apply sublist_skip.
  - destruct (decide (Q x)); [by apply sublist_cons|done].
Qed.

Lemma substring_app_l a b s : substring (a +:+ b) s → substring a s.
Proof.
  intros (pre & post & ->). exists pre, (b +:+ post).
  f_equal. clear. induction a as [|ch a IH]; [done|].
  change (String ch ((a +:+ b) +:+ post) = String ch (a +:+ b +:+ post)).
  by f_equal.
Qed.

(** X3. A sort on a column the table cannot sort by (an id that matches no
    column, a column without accessor key, an empty id or key) is skipped:
    the run is the very run of the cleared sort state, and its rows stand in
    input order. *)
Theorem processedData_skips_sort props searchTerm st h rows :
  holdsRows h (data props) rows = true →
  activeAccessor props st = None →
  processedData props searchTerm st h
  = processedData props searchTerm initialSortState h
  ∧ ∃ out h', produces (processedData props searchTerm st) h out h'
      ∧ out `sublist_of` rows
      ∧ (searchTerm = "" → out = rows).
Proof.
  intros Hwf Hnone. split.
  - unfold processedData, activeAccessor in *.
    destruct (sort_column st) as [column|]; [|reflexivity].
    destruct (truthy column); [|reflexivity].
    destruct (findAccessor props column) as [accessor|]; [|reflexivity].
    destruct (truthy accessor); [discriminate|reflexivity].
  - destruct (processedData_run props searchTerm st h rows Hwf)
      as (r & tl & Hrun & Hout & _).
    eexists _, _. split; [by exists r|].
    destruct (visibleRows_kept h rows props searchTerm st)
      as (kept & _ & Hkept & _ & Hsub & _ & Hempty & _).
    rewrite (Hkept Hnone). split; [done|]. exact Hempty.
Qed.

(** X4. Typing on narrows the search: when lower-casing works letter by
    letter, the rows shown for a search text extended by more characters
    are among the rows shown for the text itself, each at most as often;
    with no sort active they are a subsequence of them. *)
Theorem processedData_search_narrows props searchTerm more st h rows :
  lowersLetterwise E →
  holdsRows h (data props) rows = true →
  ∃ out out' h1 h2,
    produces (processedData props searchTerm st) h out h1
    ∧ produces (processedData props (searchTerm +:+ more) st) h out' h2
    ∧ out' ⊆+ out
    ∧ (activeAccessor props st = None → out' `sublist_of` out).
Proof.
  intros Hlow Hwf.
  destruct (processedData_run props searchTerm st h rows Hwf)
    as (r & tl & Hrun & Hout & _).
  destruct (processedData_run props (searchTerm +:+ more) st h rows Hwf)
    as (r' & tl' & Hrun' & Hout' & _).
  eexists _, _, _, _. split; [by exists r|]. split; [by exists r'|].
  destruct (visibleRows_kept h rows props searchTerm st)
    as (kept & Hperm & Hnone & _ & _ & _ & Hempty & Hfilter).
  destruct (visibleRows_kept h rows props (searchTerm +:+ more) st)
    as (kept' & Hperm' & Hnone' & _ & Hsub' & _ & _ & Hfilter').
  assert (Hkk : kept' `sublist_of` kept).
  { destruct (decide (searchTerm = "")) as [->|Hne].
    - by rewrite (Hempty eq_refl).
    - rewrite (Hfilter Hne), Hfilter' by (by destruct searchTerm).
      apply filter_sublist_impl. intros x.
      rewrite !rowMatchesb_Matches. intros (f & Hf & Hn & Hsubstr).
      exists f. split; [done|]. split; [done|].
      rewrite Hlow in Hsubstr. by eapply substring_app_l. }
  split.
  - rewrite Hperm, Hperm'. by apply sublist_submseteq.
  - intros Hacc. by rewrite (Hnone Hacc), (Hnone' Hacc).
Qed.

(** X5. A column of finite numbers or valid dates is really sorted: the
    keys of the rows shown never decrease when the sort is ascending and
    never increase when it is descending. *)
Theorem processedData_sorts_numbers props searchTerm st h rows accessor :
  holdsRows h (data props) rows = true →
  activeAccessor props st = Some accessor →
  numericColumn h accessor rows = true →
  ∃ out h', produces (processedData props searchTerm st) h out h'
    ∧ (sort_direction st = asc
       → StronglySorted Z.le (numericValue h accessor <$> out))
    ∧ (sort_direction st = desc
       → StronglySorted Z.ge (numericValue h accessor <$> out)).
Proof.
  intros Hwf Hacc Hnum.
  destruct (processedData_run props searchTerm st h rows Hwf)
    as (r & tl & Hrun & Hout & _).
  eexists _, _. split; [by exists r|].
  destruct (visibleRows_kept h rows props searchTerm st)
    as (kept & _ & _ & Hsome & Hsub & _).
  rewrite (Hsome accessor Hacc).
  assert (Hkey : ∀ a b, a ∈ kept → b ∈ kept →
            number_pos (cmpRows h asc accessor a b)
            = (numericValue h accessor b <? numericValue h accessor a)
            ∧ number_pos (cmpRows h desc accessor a b)
              = (numericValue h accessor a <? numericValue h accessor b)).
  { intros a b Ha Hb. apply cmpRows_numeric;
      apply (numericColumn_inv h accessor rows); try done;
      by eapply elem_of_sublist. }
  split; intros ->.
  - apply sortBy_key_sorted. intros a b Ha Hb. by apply Hkey.
  - assert (Hs : StronglySorted Z.le
        ((λ a, - numericValue h accessor a)
           <$> sortBy (cmpRows h desc accessor) kept)).
    { apply sortBy_key_sorted. intros a b Ha Hb.
      rewrite (proj2 (Hkey a b Ha Hb)).
      destruct (Z.ltb_spec (numericValue h accessor a)
                  (numericValue h accessor b)),
               (Z.ltb_spec (- numericValue h accessor b)
                  (- numericValue h accessor a)); lia || reflexivity. }
    revert Hs. generalize (sortBy (cmpRows h desc accessor) kept).
    clear. intros l. induction l as [|x l IH]; [constructor|].
    rewrite !fmap_cons, !StronglySorted_cons, !Forall_fmap.
    intros [Hk Hs]. split; [|by apply IH].
    eapply Forall_impl; [exact Hk|]. simpl. intros y. lia.
Qed.

(** X6. On such a column, with no two rows holding the same key, the
    descending order is the ascending order reversed. *)
Theorem processedData_descending_reverses props searchTerm column h rows
    accessor :
  holdsRows h (data props) rows = true →
  activeAccessor props {| sort_column := Some column; sort_direction := asc |}
  = Some accessor →
  numericColumn h accessor rows = true →
  NoDup (numericValue h accessor <$> rows) →
  ∃ up down h1 h2,
    produces (processedData props searchTerm
                {| sort_column := Some column; sort_direction := asc |})
      h up h1
    ∧ produces (processedData props searchTerm
                  {| sort_column := Some column; sort_direction := desc |})
        h down h2
    ∧ down = reverse up.
Proof.
  intros Hwf Hacc Hnum Hnd.
  set (up := {| sort_column := Some column; sort_direction := asc |}) in *.
  set (down := {| sort_column := Some column; sort_direction := desc |}).
  destruct (processedData_run props searchTerm up h rows Hwf)
    as (r & tl & Hrun & Hout & _).
  destruct (processedData_run props searchTerm down h rows Hwf)
    as (r' & tl' & Hrun' & Hout' & _).
  eexists _, _, _, _. split; [by exists r|]. split; [by exists r'|].
  destruct (visibleRows_kept h rows props searchTerm up)
    as (kept & _ & _ & Hsome & Hsub & _ & Hempty & Hfilter).
  destruct (visibleRows_kept h rows props searchTerm down)
    as (kept' & _ & _ & Hsome' & _ & _ & Hempty' & Hfilter').
  assert (kept' = kept) as ->.
  { destruct (decide (searchTerm = "")) as [Hs|Hs].
    - by rewrite (Hempty Hs), (Hempty' Hs).
    - by rewrite (Hfilter Hs), (Hfilter' Hs). }
  rewrite (Hsome accessor Hacc), (Hsome' accessor Hacc). simpl.
  assert (Hkey : ∀ a b, a ∈ kept → b ∈ kept →
            number_pos (cmpRows h asc accessor a b)
            = (numericValue h accessor b <? numericValue h accessor a)
            ∧ number_pos (cmpRows h desc accessor a b)
              = (numericValue h accessor a <? numericValue h accessor b)).
  { intros a b Ha Hb. apply cmpRows_numeric;
      apply (numericColumn_inv h accessor rows); try done;
      by eapply elem_of_sublist. }
  apply (sortBy_key_reverse _ _ (numericValue h accessor)).
  - eapply sublist_NoDup; [exact Hnd|]. by apply fmap_sublist.
  - intros a b Ha Hb. by apply Hkey.
  - intros a b Ha Hb. by apply Hkey.
Qed.

(** X7. The recent-transactions table of the dashboard shows at most five
    rows, all taken from the first five transactions, whatever is searched
    or sorted; the array of all transactions is left as it was. *)
Theorem recentTransactions_top_five transactions searchTerm st h rows :
  holdsRows h transactions rows = true →
  ∃ out h', produces (recentTransactions transactions searchTerm st) h out h'
    ∧ (List.length out ≤ 5)%nat
    ∧ out ⊆+ take 5 rows
    ∧ h `prefix_of` h'
    ∧ h' !! transactions = Some (OArray rows).
Proof.
  intros Hwf. pose proof Hwf as [Hd Hrows]%holdsRows_inv.
  set (h1 := h ++ [OArray (take 5 rows)]).
  assert (Hwf1 : holdsRows h1 (data (TransactionsTable (List.length h)))
                   (take 5 rows) = true).
  { unfold holdsRows. apply andb_true_intro. split.
    - apply bool_decide_eq_true_2. subst h1. simpl.
      by rewrite list_lookup_middle.
    - apply forallb_forall. intros x Hx%list_elem_of_In.
      apply isRowb_app, Hrows. by eapply elem_of_sublist, sublist_take. }
  destruct (processedData_run (TransactionsTable (List.length h)) searchTerm
              st h1 (take 5 rows) Hwf1) as (r & tl & Hrun & Hout & _).
  exists (visibleRows h1 (take 5 rows) (TransactionsTable (List.length h))
            searchTerm st), (h1 ++ tl).
  split.
  { exists r. split; [|done]. unfold recentTransactions.
    erewrite bind_run; [exact Hrun|]. unfold Array_slice.
    erewrite bind_run; [reflexivity|].
    unfold readArray. by rewrite Hd. }
  destruct (visibleRows_kept h1 (take 5 rows)
              (TransactionsTable (List.length h)) searchTerm st)
    as (kept & Hperm & _ & _ & Hsub & _).
  assert (Hin : visibleRows h1 (take 5 rows)
                  (TransactionsTable (List.length h)) searchTerm st
                ⊆+ take 5 rows).
  { rewrite Hperm. by apply sublist_submseteq. }
  split; [|split; [done|split]].
  - apply submseteq_length in Hin. rewrite length_take in Hin. lia.
  - subst h1. rewrite <- app_assoc. by eexists.
  - subst h1. rewrite <- app_assoc. by apply lookup_app_l_Some.
Qed.

End PipelineExtras.

(** Decimal printing tells integers apart. *)
Lemma numberToString_inj a b :
  numberToString (Num a) = numberToString (Num b) → a = b.
Proof.
  assert (Hnil : ∀ z, Z.to_int z ≠ Decimal.Pos Decimal.Nil
                      ∧ Z.to_int z ≠ Decimal.Neg Decimal.Nil).
  { intros z. split; intros Hz; pose proof (DecimalZ.of_to z) as Hof;
      rewrite Hz in Hof; simpl in Hof; subst z; discriminate. }
  simpl. intros Heq.
  assert (Hi : Some (Z.to_int a) = Some (Z.to_int b)).
  { rewrite <- (NilZero.isi (Z.to_int a)), <- (NilZero.isi (Z.to_int b))
      by apply Hnil. by rewrite Heq. }
  injection Hi as Hi.
  by rewrite <- (DecimalZ.of_to a), <- (DecimalZ.of_to b), Hi.
Qed.

(** X8. The keys React is given by default: when no row has an [id]
    field, the rows are keyed by their positions and the keys are pairwise
    distinct; when every row has one, the keys are the printed ids, so they
    are distinct exactly when those are. *)
Theorem defaultRowKey_distinct {E : Engine} (rows : list (gmap string value)) :
  (Forall (λ row, row !! "id" = None) rows →
   NoDup (imap (λ index row, defaultRowKey row index) rows))
  ∧ (Forall (λ row, is_Some (row !! "id")) rows →
     imap (λ index row, defaultRowKey row index) rows
     = (λ row, ToString (propOf row "id")) <$> rows).
Proof.
  split.
  - intros Hno.
    assert (Hkeys : ∀ k, imap (λ index row, defaultRowKey row (k + index)) rows
                         = indexToString <$> seq k (List.length rows)).
    { induction Hno as [|row rows Hrow _ IH]; intros k; [done|].
      simpl. unfold defaultRowKey at 1. rewrite Hrow, Nat.add_0_r. f_equal.
      etrans; [|exact (IH (S k))]. apply imap_ext. intros i x _. simpl.
      f_equal. lia. }
    specialize (Hkeys 0%nat). simpl in Hkeys. rewrite Hkeys.
    apply NoDup_fmap_2; [|apply NoDup_seq].
    intros i j Hij. apply numberToString_inj in Hij. lia.
  - intros Hall.
    assert (Hkeys : ∀ k, imap (λ index row, defaultRowKey row (k + index)) rows
                         = (λ row, ToString (propOf row "id")) <$> rows).
    { induction Hall as [|row rows [id Hrow] _ IH]; intros k; [done|].
      simpl. unfold defaultRowKey at 1, propOf at 1. rewrite Hrow. simpl.
      f_equal. etrans; [|exact (IH (S k))]. apply imap_ext. intros i x _. simpl.
      f_equal. lia. }
    exact (Hkeys 0%nat).
Qed.

Lemma asciiLower_app s t :
  asciiLower (s +:+ t) = asciiLower s +:+ asciiLower t.
Proof.
  induction s as [|ch s IH]; [done|].
  change (String (lowerAscii ch) (asciiLower (s +:+ t))
          = String (lowerAscii ch) (asciiLower s +:+ asciiLower t)).
  by f_equal.
Qed.

Lemma processedData_skips_sort_witness :
  holdsRows chartHeap (data chartProps) [0; 1; 2]%nat = true
  ∧ activeAccessor chartProps
      {| sort_column := Some "actions"; sort_direction := desc |} = None
  ∧ processedData (E := asciiEngine) chartProps "a"
      {| sort_column := Some "actions"; sort_direction := desc |} chartHeap
    = processedData (E := asciiEngine) chartProps "a" initialSortState
        chartHeap.
Proof.
  split; [reflexivity|]. split; [reflexivity|].
  apply (processedData_skips_sort (E := asciiEngine) chartProps "a"
           {| sort_column := Some "actions"; sort_direction := desc |}
           chartHeap [0; 1; 2]%nat); reflexivity.
Defined.

Lemma processedData_search_narrows_witness :
  lowersLetterwise asciiEngine
  ∧ holdsRows usersHeap (data usersProps) [0; 1; 2]%nat = true
  ∧ ∃ out out' h1 h2,
      produces (processedData (E := asciiEngine) usersProps "Lee"
                  initialSortState) usersHeap out h1
      ∧ produces (processedData (E := asciiEngine) usersProps ("Lee" +:+ "r")
                    initialSortState) usersHeap out' h2
      ∧ out' ⊆+ out
      ∧ (activeAccessor usersProps initialSortState = None
         → out' `sublist_of` out).
Proof.
  split; [exact asciiLower_app|]. split; [reflexivity|].
  apply (processedData_search_narrows (E := asciiEngine) usersProps "Lee" "r"
           initialSortState usersHeap [0; 1; 2]%nat asciiLower_app).
  reflexivity.
Defined.

Lemma processedData_sorts_numbers_witness :
  holdsRows ledgerHeap (data (TransactionsTable 6%nat)) [0; 1; 2; 3; 4; 5]%nat
  = true
  ∧ activeAccessor (TransactionsTable 6%nat) (sortByAmount asc) = Some "amount"
  ∧ numericColumn ledgerHeap "amount" [0; 1; 2; 3; 4; 5]%nat = true
  ∧ ∃ out h',
      produces (processedData (E := asciiEngine) (TransactionsTable 6%nat) ""
                  (sortByAmount asc)) ledgerHeap out h'
      ∧ (sort_direction (sortByAmount asc) = asc
         → StronglySorted Z.le (numericValue ledgerHeap "amount" <$> out))
      ∧ (sort_direction (sortByAmount asc) = desc
         → StronglySorted Z.ge (numericValue ledgerHeap "amount" <$> out)).
Proof.
  split; [reflexivity|]. split; [reflexivity|]. split; [reflexivity|].
  apply (processedData_sorts_numbers (E := asciiEngine) (TransactionsTable 6%nat)
           "" (sortByAmount asc) ledgerHeap [0; 1; 2; 3; 4; 5]%nat "amount");
    reflexivity.
Defined.

Lemma processedData_descending_reverses_witness :
  holdsRows ledgerHeap (data (TransactionsTable 6%nat)) [0; 1; 2; 3; 4; 5]%nat
  = true
  ∧ numericColumn ledgerHeap "date" [0; 1; 2; 3; 4; 5]%nat = true
  ∧ NoDup (numericValue ledgerHeap "date" <$> [0; 1; 2; 3; 4; 5]%nat)
  ∧ ∃ up down h1 h2,
      produces (processedData (E := asciiEngine) (TransactionsTable 6%nat) "o"
                  {| sort_column := Some "date"; sort_direction := asc |})
        ledgerHeap up h1
      ∧ produces (processedData (E := asciiEngine) (TransactionsTable 6%nat) "o"
                    {| sort_column := Some "date"; sort_direction := desc |})
          ledgerHeap down h2
      ∧ down = reverse up.
Proof.
  assert (Hnd : NoDup (numericValue ledgerHeap "date"
                         <$> [0; 1; 2; 3; 4; 5]%nat)).
  { refine (bool_decide_unpack _ _). vm_compute. exact I. }
  split; [reflexivity|]. split; [reflexivity|]. split; [exact Hnd|].
  apply (processedData_descending_reverses (E := asciiEngine)
           (TransactionsTable 6%nat) "o" "date" ledgerHeap
           [0; 1; 2; 3; 4; 5]%nat "date" eq_refl eq_refl eq_refl Hnd).
Defined.

Lemma recentTransactions_top_five_witness :
  holdsRows ledgerHeap 6%nat [0; 1; 2; 3; 4; 5]%nat = true
  ∧ ∃ out h',
      produces (recentTransactions (E := asciiEngine) 6%nat ""
                  (sortByAmount desc)) ledgerHeap out h'
      ∧ (List.length out ≤ 5)%nat
      ∧ out ⊆+ take 5 [0; 1; 2; 3; 4; 5]%nat
      ∧ ledgerHeap `prefix_of` h'
      ∧ h' !! 6%nat = Some (OArray [0; 1; 2; 3; 4; 5]%nat).
Proof.
  split; [reflexivity|].
  apply (recentTransactions_top_five (E := asciiEngine) 6%nat ""
           (sortByAmount desc) ledgerHeap [0; 1; 2; 3; 4; 5]%nat).
  reflexivity.
Defined.

(** The six ledger rows, their five most recent sorted by amount
    descending. *)
Example recentTransactions_by_amount :
  ∃ h', produces (recentTransactions (E := asciiEngine) 6%nat ""
                    (sortByAmount desc)) ledgerHeap [0; 1; 3; 2; 4]%nat h'.
Proof. eexists. exists 8%nat. split; reflexivity. Qed.

Lemma defaultRowKey_distinct_witness :
  Forall (λ row : gmap string value, row !! "id" = None)
    [ {["name" := VString "Jan"]}; {["name" := VString "Feb"]} ]
  ∧ NoDup (imap (λ index row, defaultRowKey (E := asciiEngine) row index)
             [ {["name" := VString "Jan"]}; {["name" := VString "Feb"]} ]).
Proof.
  assert (Hno : Forall (λ row : gmap string value, row !! "id" = None)
            [ {["name" := VString "Jan"]}; {["name" := VString "Feb"]} ])
    by (repeat constructor).
  split; [exact Hno|].
  apply (defaultRowKey_distinct (E := asciiEngine)
           [ {["name" := VString "Jan"]}; {["name" := VString "Feb"]} ]).
  exact Hno.
Defined.

(* ===================================================================== *)
(** ** The hooks beyond the claims *)
(* ===================================================================== *)

Section CacheExtras.
Context {D : Type}.
Implicit Types (c : QueryCache D) (key : CacheKey).

Lemma entries_invalidate keyPrefix key c :
  entries (invalidate keyPrefix c) !! key
  = (λ e, if bool_decide (keyPrefix `prefix_of` key) then markStale e else e)
      <$> entries c !! key.
Proof.
  unfold invalidate; simpl. rewrite map_lookup_imap.
  by destruct (entries c !! key).
Qed.

Lemma freshAt_invalidate keyPrefix key c now opts :
  keyPrefix `prefix_of` key →
  freshAt (invalidate keyPrefix c) key now opts = false.
Proof.
  intros Hp. unfold freshAt. rewrite entries_invalidate.
  destruct (entries c !! key) as [e|]; simpl; [|done].
  by rewrite bool_decide_eq_true_2.
Qed.

(** X9. What [onSuccess] of [useUpdateUser] does to the cache: every user
    query (the list and each single user, all keys that start with
    ['users']) is stale from then on, no cached data is lost, queries
    under other keys are untouched, and the second invalidation, of the
    updated user's own key, adds nothing to the first. *)
Theorem useUpdateUser_onSuccess_invalidates (id : string) c :
  (∀ key now opts,
     queryKeys_users `prefix_of` key →
     freshAt (useUpdateUser_onSuccess id c) key now opts = false)
  ∧ (∀ key, getData key (useUpdateUser_onSuccess id c) = getData key c)
  ∧ (∀ key, ¬ queryKeys_users `prefix_of` key →
       entries (useUpdateUser_onSuccess id c) !! key = entries c !! key)
  ∧ useUpdateUser_onSuccess id c = invalidate queryKeys_users c.
Proof.
  assert (Heq : useUpdateUser_onSuccess id c = invalidate queryKeys_users c).
  { unfold useUpdateUser_onSuccess, invalidate, withEntries. simpl. f_equal.
    apply map_eq. intros key. rewrite !map_lookup_imap.
    destruct (entries c !! key) as [e0|]; simpl; [|done]. f_equal.
    destruct (bool_decide_reflect (queryKeys_userById id `prefix_of` key))
      as [Hp|_]; [|done].
    rewrite bool_decide_eq_true_2; [by destruct e0|].
    etrans; [|exact Hp]. by exists [id]. }
  split; [|split; [|split; [|exact Heq]]].
  - intros key now opts Hp. rewrite Heq. by apply freshAt_invalidate.
  - intros key. rewrite Heq. apply getData_invalidate.
  - intros key Hp. rewrite Heq, entries_invalidate.
    rewrite bool_decide_eq_false_2 by done. by destruct (entries c !! key).
Qed.

(** A response is dropped unless its request is the one in flight. *)
Lemma settle_dropped key req outcome now c :
  (∀ r, inflight c !! key = Some r → request_id r ≠ req) →
  settle key req outcome now c = c.
Proof.
  intros Hr. unfold settle. destruct (inflight c !! key) as [r|]; [|done].
  specialize (Hr r eq_refl). by apply Nat.eqb_neq in Hr as ->.
Qed.

End CacheExtras.

Lemma mutate_client_shape api t0 t1 newTransaction w :
  ∃ c1,
    queryClient (mutate useCreateTransaction api t0 t1 newTransaction w)
    = invalidate queryKeys_transactions c1
    ∧ inflight c1 = delete queryKeys_transactions (inflight (queryClient w))
    ∧ fetched c1 = fetched (queryClient w)
    ∧ next_request c1 = next_request (queryClient w)
    ∧ notified c1 = notified (queryClient w).
Proof.
  unfold mutate; simpl.
  destruct api as [[]|e]; simpl.
  - eexists. split; [reflexivity|]. done.
  - destruct (getData queryKeys_transactions
                (cancel queryKeys_transactions (queryClient w))); simpl;
      (eexists; split; [reflexivity|]; done).
Qed.

(** X10. When a mutation has settled, resolved or rejected, [onSettled]
    has invalidated the transactions query: it holds data and is stale,
    whatever its stale time. *)
Theorem mutate_settles_stale api t0 t1 newTransaction w now opts :
  let c := queryClient
             (mutate useCreateTransaction api t0 t1 newTransaction w) in
  freshAt c queryKeys_transactions now opts = false
  ∧ is_Some (getData queryKeys_transactions c).
Proof.
  intros c. split.
  - destruct (mutate_client_shape api t0 t1 newTransaction w)
      as (c1 & Hc & _).
    subst c. rewrite Hc. by apply freshAt_invalidate.
  - subst c. unfold mutate; simpl. destruct api as [[]|e]; simpl.
    + rewrite getData_invalidate, getData_setData. by eexists.
    + destruct (getData queryKeys_transactions
                  (cancel queryKeys_transactions (queryClient w))) eqn:Hd;
        simpl; rewrite getData_invalidate, getData_setData; by eexists.
Qed.

(** X11. A mutation that resolves leaves the optimistic transaction, with
    its temporary id, at the head of the cached list, and the stored
    transaction, with the id the mock server gave it, at the head of
    [transactions]; the two ids differ, so only the refetch brings the
    cache in line. *)
Theorem mutate_resolved_keeps_optimistic t0 t1 newTransaction w :
  let w' := mutate useCreateTransaction (Normal ()) t0 t1 newTransaction w in
  let previous :=
    default [] (getData queryKeys_transactions (queryClient w)) in
  getData queryKeys_transactions (queryClient w')
  = Some ({| txn_id := stamped "temp-" t0; txn_rest := newTransaction |}
          :: previous)
  ∧ transactions w'
    = {| txn_id := stamped "txn-" t1; txn_rest := newTransaction |}
      :: transactions w
  ∧ stamped "temp-" t0 ≠ stamped "txn-" t1.
Proof.
  intros w' previous. subst w' previous. unfold mutate; simpl.
  rewrite getData_invalidate, getData_setData, getData_cancel.
  split; [|split; [done|discriminate]].
  by destruct (getData queryKeys_transactions (queryClient w)).
Qed.

(** X12. The cancellation race: a fetch of the transactions in flight when
    the mutation starts is cancelled by [onMutate]; its response, arriving
    after the mutation or after a later request has started a new fetch, is
    dropped and changes nothing in the cache. *)
Theorem mutate_drops_earlier_response api t0 t1 newTransaction w r outcome
    now caller now' opts :
  inflight (queryClient w) !! queryKeys_transactions = Some r →
  (request_id r < next_request (queryClient w))%nat →
  let c := queryClient
             (mutate useCreateTransaction api t0 t1 newTransaction w) in
  let c' := (get queryKeys_transactions caller now' opts c).2 in
  settle queryKeys_transactions (request_id r) outcome now c = c
  ∧ settle queryKeys_transactions (request_id r) outcome now c' = c'.
Proof.
  intros Hr Hlt c c'.
  destruct (mutate_client_shape api t0 t1 newTransaction w)
    as (c1 & Hc & Hc1 & _ & Hnext & _).
  assert (Hfresh : freshAt c queryKeys_transactions now' opts = false).
  { subst c. rewrite Hc. by apply freshAt_invalidate. }
  assert (Hnone : inflight c !! queryKeys_transactions = None).
  { subst c. rewrite Hc. simpl. rewrite Hc1. apply lookup_delete_eq. }
  split.
  - apply settle_dropped. intros r0. by rewrite Hnone.
  - destruct (get_first queryKeys_transactions caller now' opts c Hnone Hfresh)
      as (Hin & _). fold c' in Hin.
    apply settle_dropped. intros r0. rewrite Hin. intros [= <-]. simpl.
    subst c. rewrite Hc. simpl. rewrite Hnext. lia.
Qed.

Lemma clickAll_reachable_witness :
  clickAll ["name"; "amount"; "amount"] initialSortState
  = {| sort_column := Some "amount"; sort_direction := desc |}
  ∧ ∃ cs', ["name"; "amount"; "amount"] = cs' ++ ["amount"; "amount"].
Proof.
  split; [reflexivity|].
  apply (clickAll_reachable ["name"; "amount"; "amount"]). reflexivity.
Defined.

Lemma useUpdateUser_onSuccess_invalidates_witness :
  queryKeys_users `prefix_of` queryKeys_userById "2"
  ∧ freshAt (useUpdateUser_onSuccess "1"
               (setData (queryKeys_userById "2") (λ _, 7%nat) emptyCache))
      (queryKeys_userById "2") 0 halfMinute = false.
Proof.
  assert (Hp : queryKeys_users `prefix_of` queryKeys_userById "2")
    by (by exists ["2"]).
  split; [exact Hp|].
  by apply (useUpdateUser_onSuccess_invalidates "1").
Defined.

Lemma mutate_drops_earlier_response_witness :
  inflight (queryClient fetchingWorld) !! queryKeys_transactions
  = Some {| request_id := 0; subscribers := [1%nat] |}
  ∧ (0 < next_request (queryClient fetchingWorld))%nat
  ∧ settle queryKeys_transactions 0 (Normal [salary]) 2000
      (queryClient (mutate useCreateTransaction (Normal ()) 1700 1750 coffee
                      fetchingWorld))
    = queryClient (mutate useCreateTransaction (Normal ()) 1700 1750 coffee
                     fetchingWorld).
Proof.
  assert (Hin : inflight (queryClient fetchingWorld) !! queryKeys_transactions
                = Some {| request_id := 0; subscribers := [1%nat] |})
    by reflexivity.
  assert (Hlt : (0 < next_request (queryClient fetchingWorld))%nat)
    by (vm_compute; lia).
  split; [exact Hin|]. split; [exact Hlt|].
  apply (mutate_drops_earlier_response (Normal ()) 1700 1750 coffee
           fetchingWorld _ (Normal [salary]) 2000 2%nat 2100 halfMinute
           Hin Hlt).
Defined.

(* ===================================================================== *)
(** ** [useUsers] and [useUpdateUser] on the mock users *)
(* ===================================================================== *)

Lemma useUsers_filter_stage (want : option string) (k : string)
    (l : list (gmap string value)) :
  let l' :=
    match want with
    | Some s => if truthy s then filter (λ u, propOf u k = VString s) l else l
    | None => l
    end in
  l' `sublist_of` l
  ∧ (∀ u, u ∈ l' ↔
          u ∈ l ∧ ∀ s, want = Some s → s ≠ "" → propOf u k = VString s)
  ∧ (truthy_opt want = false → l' = l).
Proof.
  destruct want as [s|]; simpl.
  - destruct (truthy s) eqn:Hs.
    + split; [apply sublist_filter|]. split; [|discriminate].
      intros u. rewrite list_elem_of_filter. split.
      * intros [Hu Hin]. split; [done|]. by intros s' [= <-] _.
      * intros [Hin Hu]. split; [|done]. apply Hu; [done|].
        intros ->. discriminate.
    + apply truthy_false in Hs as ->. split; [done|]. split; [|done].
      intros u. split; [|tauto]. intros Hu. split; [done|].
      by intros s [= <-] Hne.
  - split; [done|]. split; [|done]. intros u. split; [|tauto].
    intros Hu. split; [done|]. discriminate.
Qed.

(** X13. The filters of [useUsers]: the result is a subsequence of the
    users; a user is in it exactly when it passes every filter that is
    set to a non-empty string (a filter left out, or set to the empty
    string, lets every user pass); with no such filter the result is the
    list of all users. *)
Theorem useUsers_queryFn_filters (users : list (gmap string value))
    (filters : option UserFilters) :
  let passes (want : option string) (k : string) (u : gmap string value) :=
    ∀ s, want = Some s → s ≠ "" → propOf u k = VString s in
  let result := useUsers_queryFn users filters in
  result `sublist_of` users
  ∧ (∀ u, u ∈ result ↔
          u ∈ users ∧ passes (filters ≫= filter_status) "status" u
          ∧ passes (filters ≫= filter_role) "role" u)
  ∧ (truthy_opt (filters ≫= filter_status) = false →
     truthy_opt (filters ≫= filter_role) = false → result = users).
Proof.
  intros passes result.
  destruct (useUsers_filter_stage (filters ≫= filter_status) "status" users)
    as (Hsub1 & Hin1 & Hall1).
  set (l1 := match filters ≫= filter_status with
             | Some s => if truthy s
                         then filter (λ u, propOf u "status" = VString s) users
                         else users
             | None => users
             end) in *.
  destruct (useUsers_filter_stage (filters ≫= filter_role) "role" l1)
    as (Hsub2 & Hin2 & Hall2).
  split; [by etrans|]. split.
  - intros u. subst result. unfold useUsers_queryFn. fold l1.
    rewrite Hin2, Hin1. subst passes. simpl. tauto.
  - intros Hs Hr. subst result. unfold useUsers_queryFn. fold l1.
    by rewrite (Hall2 Hr), (Hall1 Hs).
Qed.

Lemma findIndex_None {A} (p : A → bool) l :
  findIndex p l = None ↔ ∀ x, x ∈ l → p x = false.
Proof.
  induction l as [|x l IH]; simpl.
  - split; [by intros _ y Hy%elem_of_nil|done].
  - destruct (p x) eqn:Hx.
    + split; [done|]. intros Hall. rewrite Hall in Hx by left. done.
    + rewrite fmap_None, IH. split.
      * intros Hall y [->|Hy]%elem_of_cons; auto.
      * intros Hall y Hy. apply Hall. by right.
Qed.

Lemma findIndex_Some {A} (p : A → bool) l i :
  findIndex p l = Some i ↔
    (∃ x, l !! i = Some x ∧ p x = true)
    ∧ ∀ j y, (j < i)%nat → l !! j = Some y → p y = false.
Proof.
  revert i. induction l as [|x l IH]; intros i; simpl.
  - split; [done|]. by intros [(y & Hy & _) _].
  - destruct (p x) eqn:Hx.
    + split.
      * intros [= <-]. split; [by exists x|]. intros j y Hj. lia.
      * intros [(y & Hy & Hpy) Hfirst]. destruct i as [|i]; [done|].
        rewrite (Hfirst 0%nat x) in Hx by (done || lia). done.
    + rewrite fmap_Some. split.
      * intros (i' & Hi' & ->). apply IH in Hi' as [Hat Hfirst].
        split; [done|]. intros [|j] y Hj; simpl.
        -- by intros [= <-].
        -- apply Hfirst. lia.
      * intros [(y & Hy & Hpy) Hfirst]. destruct i as [|i].
        -- simpl in Hy. injection Hy as <-. congruence.
        -- exists i. split; [|done]. apply IH. split; [by exists y|].
           intros j z Hj Hz. apply (Hfirst (S j) z); [lia|done].
Qed.

(** X14. [useUpdateUser] on an id no user has: the mutation rejects with
    'User not found' and the users are left as they were; this is the only
    way it rejects once the awaited call has resolved. *)
Theorem useUpdateUser_unknown_id (id : string) (updates : gmap string value)
    (users : list (gmap string value)) :
  (∀ u, u ∈ users → propOf u "id" ≠ VString id)
  ↔ useUpdateUser_mutationFn (Normal ()) id updates users
    = (Throw (Error "User not found"), users).
Proof.
  unfold useUpdateUser_mutationFn.
  destruct (findIndex _ users) as [i|] eqn:Hfind.
  - split; [|discriminate]. intros Hnone.
    apply findIndex_Some in Hfind as [(u & Hu & Hid) _].
    apply bool_decide_eq_true_1 in Hid.
    exfalso. eapply Hnone; [|exact Hid]. by eapply list_elem_of_lookup_2.
  - split; [done|]. intros _ u Hu.
    rewrite findIndex_None in Hfind. specialize (Hfind u Hu).
    by apply bool_decide_eq_false_1 in Hfind.
Qed.

(** The first user with the id is the one [findIndex] finds and the
    mutation replaces. *)
Lemma useUpdateUser_mutationFn_found (id : string)
    (updates : gmap string value) (users : list (gmap string value))
    (i : nat) (old : gmap string value) :
  users !! i = Some old →
  propOf old "id" = VString id →
  (∀ j u, (j < i)%nat → users !! j = Some u → propOf u "id" ≠ VString id) →
  useUpdateUser_mutationFn (Normal ()) id updates users
  = (Normal (updates ∪ old), <[i := updates ∪ old]> users).
Proof.
  intros Hi Hid Hfirst.
  assert (Hfind : findIndex (λ u, bool_decide (propOf u "id" = VString id))
                    users = Some i).
  { apply findIndex_Some. split.
    - exists old. split; [done|]. by apply bool_decide_eq_true_2.
    - intros j u Hj Hu. apply bool_decide_eq_false_2. by eapply Hfirst. }
  unfold useUpdateUser_mutationFn. rewrite Hfind, Hi. reflexivity.
Qed.

(** X15. [useUpdateUser] on an id some user has: the first user with that
    id, and only that one, is replaced by the merge of the user with the
    updates (a field of the updates wins, every other field is kept); the
    merge is what the mutation resolves to. *)
Theorem useUpdateUser_replaces_first (id : string)
    (updates : gmap string value) (users : list (gmap string value))
    (i : nat) (old : gmap string value) :
  users !! i = Some old →
  propOf old "id" = VString id →
  (∀ j u, (j < i)%nat → users !! j = Some u → propOf u "id" ≠ VString id) →
  let updatedUser := updates ∪ old in
  let users' := <[i := updatedUser]> users in
  useUpdateUser_mutationFn (Normal ()) id updates users
  = (Normal updatedUser, users')
  ∧ List.length users' = List.length users
  ∧ users' !! i = Some updatedUser
  ∧ (∀ j, j ≠ i → users' !! j = users !! j)
  ∧ (∀ k, propOf updatedUser k
          = match updates !! k with Some v => v | None => propOf old k end).
Proof.
  intros Hi Hid Hfirst updatedUser users'.
  split; [|split; [|split; [|split]]].
  - by apply useUpdateUser_mutationFn_found.
  - apply length_insert.
  - apply list_lookup_insert_eq. by eapply lookup_lt_Some.
  - intros j Hj. by apply list_lookup_insert_ne.
  - intros k. unfold propOf, updatedUser. rewrite lookup_union.
    destruct (updates !! k), (old !! k); reflexivity.
Qed.

(** X16. Updating is idempotent when the updates leave the id alone: the
    same update applied again finds the same user, resolves to the same
    merge and changes nothing. *)
Theorem useUpdateUser_idempotent (id : string) (updates : gmap string value)
    (users users' : list (gmap string value))
    (updatedUser : gmap string value) :
  updates !! "id" = None →
  useUpdateUser_mutationFn (Normal ()) id updates users
  = (Normal updatedUser, users') →
  useUpdateUser_mutationFn (Normal ()) id updates users'
  = (Normal updatedUser, users').
Proof.
  intros Hkeep. unfold useUpdateUser_mutationFn at 1.
  destruct (findIndex _ users) as [i|] eqn:Hfind; [|discriminate].
  intros [= <- <-].
  pose proof Hfind as [(old & Hold & Hid%bool_decide_eq_true_1) Hfirst]
    %findIndex_Some.
  rewrite Hold. change (default ∅ (Some old)) with old.
  assert (Hlt : (i < List.length users)%nat) by by eapply lookup_lt_Some.
  assert (Hid' : propOf (updates ∪ old) "id" = VString id).
  { unfold propOf in *. by rewrite lookup_union, Hkeep, (left_id None _). }
  pose proof (useUpdateUser_mutationFn_found id updates
                (<[i := updates ∪ old]> users) i (updates ∪ old)) as Hrun.
  rewrite Hrun.
  - f_equal.
    + f_equal. apply map_eq. intros k. rewrite !lookup_union.
      by destruct (updates !! k), (old !! k).
    + rewrite list_insert_insert_eq. f_equal. apply map_eq. intros k.
      rewrite !lookup_union. by destruct (updates !! k), (old !! k).
  - by apply list_lookup_insert_eq.
  - exact Hid'.
  - intros j u Hj. rewrite list_lookup_insert_ne by lia. intros Hu.
    specialize (Hfirst j u Hj Hu). by apply bool_decide_eq_false_1 in Hfirst.
Qed.

(** Deactivating the second of the mock users. *)
Lemma mockUsers_deactivate :
  ∃ updatedUser,
    useUpdateUser_mutationFn (Normal ()) "2"
      {["status" := VString "inactive"]} mockUsers
    = (Normal updatedUser, <[1%nat := updatedUser]> mockUsers).
Proof.
  eexists.
  apply (useUpdateUser_mutationFn_found "2"
           {["status" := VString "inactive"]} mockUsers 1%nat
           (list_to_map [("id", VString "2");
                         ("name", VString "Jackson Lee");
                         ("role", VString "user");
                         ("status", VString "active")])).
  - reflexivity.
  - reflexivity.
  - intros [|[|j]] u Hj; [|lia|lia]. intros [= <-]. by vm_compute.
Defined.

Lemma useUpdateUser_unknown_id_witness :
  useUpdateUser_mutationFn (Normal ()) "9" {["status" := VString "inactive"]}
    mockUsers
  = (Throw (Error "User not found"), mockUsers).
Proof.
  apply (useUpdateUser_unknown_id "9" {["status" := VString "inactive"]}
           mockUsers).
  intros u Hu. repeat (apply elem_of_cons in Hu as [->|Hu]; [by vm_compute|]).
  by apply elem_of_nil in Hu.
Defined.

Lemma useUpdateUser_replaces_first_witness :
  (∃ old, mockUsers !! 1%nat = Some old ∧ propOf old "id" = VString "2")
  ∧ ∃ updatedUser,
      useUpdateUser_mutationFn (Normal ()) "2"
        {["status" := VString "inactive"]} mockUsers
      = (Normal updatedUser, <[1%nat := updatedUser]> mockUsers)
      ∧ propOf updatedUser "status" = VString "inactive"
      ∧ propOf updatedUser "name" = VString "Jackson Lee".
Proof.
  split; [eexists; split; reflexivity|].
  destruct (useUpdateUser_replaces_first "2"
              {["status" := VString "inactive"]} mockUsers 1%nat
              (list_to_map [("id", VString "2");
                            ("name", VString "Jackson Lee");
                            ("role", VString "user");
                            ("status", VString "active")]))
    as (Hrun & _ & _ & _ & Hprops).
  - reflexivity.
  - reflexivity.
  - intros [|[|j]] u Hj; [|lia|lia]. intros [= <-]. by vm_compute.
  - eexists. split; [exact Hrun|]. split.
    + by rewrite (Hprops "status").
    + by rewrite (Hprops "name").
Defined.

Lemma useUpdateUser_idempotent_witness :
  ({["status" := VString "inactive"]} : gmap string value) !! "id" = None
  ∧ ∃ updatedUser users',
      useUpdateUser_mutationFn (Normal ()) "2"
        {["status" := VString "inactive"]} mockUsers
      = (Normal updatedUser, users')
      ∧ useUpdateUser_mutationFn (Normal ()) "2"
          {["status" := VString "inactive"]} users'
        = (Normal updatedUser, users').
Proof.
  split; [reflexivity|].
  destruct mockUsers_deactivate as (updatedUser & Hrun).
  exists updatedUser, (<[1%nat := updatedUser]> mockUsers).
  split; [exact Hrun|].
  apply (useUpdateUser_idempotent "2" {["status" := VString "inactive"]}
           mockUsers); [reflexivity|exact Hrun].
Defined.

(* ===================================================================== *)
(** ** [formatDate] *)
(* ===================================================================== *)

(** X17. [formatDate] by the age of the date in milliseconds: less than a
    day old is 'Today' (also across midnight), one day up to two is
    'Yesterday', two up to seven is that number of days 'ago', older dates
    are printed absolutely; a date in the future is printed as a negative
    number of days ago; an invalid date is handed to the absolute
    printer. *)
Theorem formatDate_by_age (render : number → number → string) (now date : Z) :
  let age := now - date in
  let days := age / msPerDay in
  let shown := formatDate render (Num now) (Num date) in
  (0 ≤ age < msPerDay → shown = "Today")
  ∧ (msPerDay ≤ age < 2 * msPerDay → shown = "Yesterday")
  ∧ (2 * msPerDay ≤ age < 7 * msPerDay →
     shown = numberToString (Num days) +:+ " days ago" ∧ 2 ≤ days ≤ 6)
  ∧ (7 * msPerDay ≤ age → shown = render (Num date) (Num now))
  ∧ (age < 0 →
     shown = numberToString (Num days) +:+ " days ago" ∧ days ≤ -1)
  ∧ formatDate render (Num now) NaN = render NaN (Num now).
Proof.
  intros age days shown.
  assert (Hpos : 0 < msPerDay) by (by vm_compute).
  pose proof (Z.div_mod age msPerDay ltac:(lia)) as Hdm.
  pose proof (Z.mod_pos_bound age msPerDay Hpos) as Hmod.
  fold days in Hdm.
  assert (Hshown : shown =
            if days =? 0 then "Today"
            else if days =? 1 then "Yesterday"
            else if days <? 7 then numberToString (Num days) +:+ " days ago"
            else render (Num date) (Num now)) by reflexivity.
  rewrite Hshown. clear Hshown shown. clearbody days age.
  change msPerDay with 86400000 in *.
  split; [|split; [|split; [|split; [|split; [|reflexivity]]]]]; intros Hage;
    destruct (Z.eqb_spec days 0); destruct (Z.eqb_spec days 1);
    destruct (Z.ltb_spec days 7);
    first [ reflexivity | lia | split; [reflexivity|lia] ].
Qed.

Lemma formatDate_by_age_witness :
  1705276800000 - 1705280400000 < 0
  ∧ formatDate (λ _ _, "Jan 20") (Num 1705276800000) (Num 1705280400000)
    = numberToString (Num ((1705276800000 - 1705280400000) / msPerDay))
      +:+ " days ago"
  ∧ (1705276800000 - 1705280400000) / msPerDay ≤ -1.
Proof.
  split; [lia|].
  apply (formatDate_by_age (λ _ _, "Jan 20") 1705276800000 1705280400000).
  lia.
Defined.

(** One hour ahead of the clock is shown as "-1 days ago". *)
Example formatDate_future :
  formatDate (λ _ _, "Jan 20") (Num 1705276800000) (Num 1705280400000)
  = "-1 days ago".
Proof. reflexivity. Qed.

(* ===================================================================== *)
(** ** Text columns *)
(* ===================================================================== *)

Section TextColumns.
Context {E : Engine}.

Lemma cmpRows_strings h accessor a b :
  isString (field h a accessor) = true →
  isString (field h b accessor) = true →
  cmpRows h asc accessor a b
  = localeCompareStr (stringValue h accessor a) (stringValue h accessor b)
  ∧ cmpRows h desc accessor a b
    = number_neg (localeCompareStr (stringValue h accessor a)
                    (stringValue h accessor b)).
Proof.
  unfold cmpRows, stringValue.
  destruct (field h a accessor); try discriminate.
  destruct (field h b accessor); try discriminate.
  intros _ _. split; reflexivity.
Qed.

(** X18. A column of strings is sorted in the order of the host's
    collation, provided the collation is a consistent comparator:
    ascending, no row shown comes after a row shown below it; descending,
    none comes before. *)
Theorem processedData_sorts_text props searchTerm st h rows accessor :
  collates E →
  holdsRows h (data props) rows = true →
  activeAccessor props st = Some accessor →
  stringColumn h accessor rows = true →
  ∃ out h', produces (processedData props searchTerm st) h out h'
    ∧ (sort_direction st = asc →
       StronglySorted
         (λ a b, number_pos (localeCompareStr (stringValue h accessor a)
                               (stringValue h accessor b)) = false) out)
    ∧ (sort_direction st = desc →
       StronglySorted
         (λ a b, number_pos (localeCompareStr (stringValue h accessor b)
                               (stringValue h accessor a)) = false) out).
Proof.
  intros [Hswap Htrans] Hwf Hacc Hstr.
  destruct (processedData_run props searchTerm st h rows Hwf)
    as (r & tl & Hrun & Hout & _).
  eexists _, _. split; [by exists r|].
  destruct (visibleRows_kept h rows props searchTerm st)
    as (kept & _ & _ & Hsome & Hsub & _).
  rewrite (Hsome accessor Hacc).
  assert (Hkept : ∀ a, a ∈ kept → isString (field h a accessor) = true).
  { intros a Ha. unfold stringColumn in Hstr. rewrite forallb_forall in Hstr.
    apply Hstr, list_elem_of_In. by eapply elem_of_sublist. }
  set (key := stringValue h accessor).
  assert (Htotal : ∀ s t, number_pos (localeCompareStr s t) = true
                          → number_pos (localeCompareStr t s) = false).
  { intros s t Hst. rewrite <- Hswap.
    destruct (localeCompareStr s t) as [|z]; simpl in *; [done|].
    apply Z.ltb_lt in Hst. apply Z.ltb_ge. lia. }
  split; intros ->.
  - rewrite (sortBy_ext_in _ (λ a b, localeCompareStr (key a) (key b))).
    + apply sortBy_sorted.
      * intros x y z. apply Htrans.
      * intros x y. apply Htotal.
    + intros a b Ha Hb.
      by rewrite (proj1 (cmpRows_strings h accessor a b (Hkept a Ha)
                           (Hkept b Hb))).
  - rewrite (sortBy_ext_in _ (λ a b, localeCompareStr (key b) (key a))).
    + apply (sortBy_sorted (λ a b, localeCompareStr (key b) (key a))).
      * intros x y z Hxy Hyz. by apply (Htrans _ (key y)).
      * intros x y. apply Htotal.
    + intros a b Ha Hb.
      rewrite (proj2 (cmpRows_strings h accessor a b (Hkept a Ha)
                        (Hkept b Hb))).
      by rewrite number_pos_neg, Hswap.
Qed.

End TextColumns.

(** Code-unit order is a consistent comparator. *)
Lemma string_compare_trans s t u :
  String.compare s t ≠ Gt → String.compare t u ≠ Gt →
  String.compare s u ≠ Gt.
Proof.
  revert t u. induction s as [|a s IH]; intros [|b t] [|c u]; simpl;
    try done.
  unfold Ascii.compare.
  destruct (N.compare_spec (N_of_ascii a) (N_of_ascii b)) as [Hab|Hab|Hab];
    destruct (N.compare_spec (N_of_ascii b) (N_of_ascii c)) as [Hbc|Hbc|Hbc];
    destruct (N.compare_spec (N_of_ascii a) (N_of_ascii c)) as [Hac|Hac|Hac];
    try done; try lia; try (intros; by eapply IH).
Qed.

Lemma asciiEngine_collates : collates asciiEngine.
Proof.
  split; simpl; unfold codeUnitCompare.
  - intros s t. rewrite (String.compare_antisym t s).
    by destruct (String.compare s t).
  - intros s t u Hst Htu.
    pose proof (string_compare_trans s t u) as Htrans.
    destruct (String.compare s t); try discriminate;
      destruct (String.compare t u); try discriminate;
      destruct (String.compare s u); try done; exfalso; by apply Htrans.
Qed.

Lemma processedData_sorts_text_witness :
  collates asciiEngine
  ∧ holdsRows usersHeap (data usersProps) [0; 1; 2]%nat = true
  ∧ activeAccessor usersProps
      {| sort_column := Some "name"; sort_direction := asc |} = Some "name"
  ∧ stringColumn usersHeap "name" [0; 1; 2]%nat = true
  ∧ ∃ out h',
      produces (processedData (E := asciiEngine) usersProps ""
                  {| sort_column := Some "name"; sort_direction := asc |})
        usersHeap out h'
      ∧ StronglySorted
          (λ a b, number_pos (codeUnitCompare (stringValue usersHeap "name" a)
                                (stringValue usersHeap "name" b)) = false)
          out.
Proof.
  split; [exact asciiEngine_collates|]. split; [reflexivity|].
  split; [reflexivity|]. split; [reflexivity|].
  destruct (processedData_sorts_text (E := asciiEngine) usersProps ""
              {| sort_column := Some "name"; sort_direction := asc |}
              usersHeap [0; 1; 2]%nat "name" asciiEngine_collates
              eq_refl eq_refl eq_refl) as (out & h' & Hp & Hasc & _).
  exists out, h'. split; [exact Hp|]. by apply Hasc.
Defined.

(* ===================================================================== *)
(** ** [useUser] with an id *)
(* ===================================================================== *)

(** X19. [useUser] is enabled exactly for a non-empty id.  Enabled
    queries for different ids have different keys, so they never share a
    cache entry; the disabled ones, for [undefined] and for the empty
    string, share the key [['users', '']]. *)
Theorem useUser_enabled_keys (users : list User) (id id' : option string) :
  (enabled (useUser users id) = true ↔ ∃ s, id = Some s ∧ s ≠ "")
  ∧ (enabled (useUser users id) = true →
     enabled (useUser users id') = true →
     queryKey (useUser users id) = queryKey (useUser users id') → id = id')
  ∧ queryKey (useUser users None) = queryKey (useUser users (Some "")).
Proof.
  assert (Hen : ∀ i, enabled (useUser users i) = true
                     ↔ ∃ s, i = Some s ∧ s ≠ "").
  { intros [s|]; simpl.
    - unfold truthy. destruct (String.eqb_spec s "") as [->|Hs]; simpl.
      + split; [done|]. by intros (s' & [= <-] & Hs).
      + split; [|done]. intros _. by exists s.
    - split; [done|]. by intros (s & Hs & _). }
  split; [apply Hen|]. split; [|reflexivity].
  intros (s & -> & _)%Hen (s' & -> & _)%Hen. simpl.
  unfold queryKeys_userById. by intros [= ->].
Qed.

(** X20. The fetch of [useUser(id)] resolves to the first of the users
    whose id is [id], and rejects with 'User not found' exactly when there
    is none. *)
Theorem useUser_queryFn_first (users : list User) (id : string) :
  match queryFn (useUser users (Some id)) with
  | Normal user =>
      ∃ before after, users = before ++ user :: after
        ∧ user_id user = id
        ∧ Forall (λ u, user_id u ≠ id) before
  | Throw e =>
      e = Error "User not found" ∧ Forall (λ u, user_id u ≠ id) users
  end.
Proof.
  unfold useUser; cbn [queryFn].
  induction users as [|u users IH]; simpl; [done|].
  destruct (bool_decide_reflect (Some (user_id u) = Some id)) as [Hu|Hu].
  - exists [], users. injection Hu as Hu. done.
  - assert (Hne : user_id u ≠ id) by congruence.
    destruct (List.find _ users) as [user|].
    + destruct IH as (before & after & -> & Hid & Hbefore).
      exists (u :: before), after. split; [done|]. split; [done|].
      by constructor.
    + destruct IH as [_ Hall]. split; [done|]. by constructor.
Qed.

Lemma useUser_enabled_keys_witness :
  enabled (useUser [] (Some "1")) = true
  ∧ ∃ s, Some "1" = Some s ∧ s ≠ "".
Proof.
  split; [reflexivity|].
  apply (useUser_enabled_keys [] (Some "1") None). reflexivity.
Defined.

Lemma useUsers_queryFn_filters_witness :
  truthy_opt (Some {| filter_status := None; filter_role := Some "" |}
              ≫= filter_status) = false
  ∧ truthy_opt (Some {| filter_status := None; filter_role := Some "" |}
                ≫= filter_role) = false
  ∧ useUsers_queryFn mockUsers
      (Some {| filter_status := None; filter_role := Some "" |})
    = mockUsers.
Proof.
  split; [reflexivity|]. split; [reflexivity|].
  apply (useUsers_queryFn_filters mockUsers
           (Some {| filter_status := None; filter_role := Some "" |}));
    reflexivity.
Defined.

(** The active users with role 'user': Jackson Lee alone. *)
Example useUsers_active_users :
  useUsers_queryFn mockUsers
    (Some {| filter_status := Some "active"; filter_role := Some "user" |})
  = [ list_to_map [("id", VString "2"); ("name", VString "Jackson Lee");
                   ("role", VString "user"); ("status", VString "active")] ].
Proof. by vm_compute. Qed.

(* ===================================================================== *)
(** ** Columns on which the comparator is consistent *)
(* ===================================================================== *)

Section ConsistentColumns.
Context {E : Engine}.

(** On a column of finite numbers and valid dates the comparator is
    consistent. *)
Lemma numericColumn_consistent h accessor rows :
  numericColumn h accessor rows = true →
  consistentOn (cmpRows h asc accessor) rows = true.
Proof.
  intros Hnum. unfold numericColumn in Hnum. rewrite forallb_forall in Hnum.
  assert (Hkey : ∀ r, r ∈ rows → ∃ z, numericKey h accessor r = Some z).
  { intros r Hr%list_elem_of_In. by apply Hnum, bool_decide_eq_true_1 in Hr. }
  apply consistentOn_spec. split.
  - intros x y Hx Hy.
    destruct (Hkey x Hx) as [zx Hzx], (Hkey y Hy) as [zy Hzy].
    unfold cmpRows at 1.
    rewrite <- (proj1 (cmpValues_desc_signs _ _)).
    fold (cmpRows h desc accessor x y).
    rewrite (proj2 (cmpRows_numeric h accessor x y zx zy Hzx Hzy)).
    by rewrite (proj1 (cmpRows_numeric h accessor y x zy zx Hzy Hzx)).
  - intros x y z Hx Hy Hz.
    destruct (Hkey x Hx) as [zx Hzx], (Hkey y Hy) as [zy Hzy],
             (Hkey z Hz) as [zz Hzz].
    rewrite (proj1 (cmpRows_numeric h accessor x y zx zy Hzx Hzy)),
            (proj1 (cmpRows_numeric h accessor y z zy zz Hzy Hzz)),
            (proj1 (cmpRows_numeric h accessor x z zx zz Hzx Hzz)).
    rewrite !Z.ltb_ge. lia.
Qed.

(** On a column of strings the comparator is as consistent as the
    collation of the host. *)
Lemma stringColumn_consistent h accessor rows :
  collates E →
  stringColumn h accessor rows = true →
  consistentOn (cmpRows h asc accessor) rows = true.
Proof.
  intros [Hsym Htrans] Hstr. unfold stringColumn in Hstr.
  rewrite forallb_forall in Hstr.
  assert (His : ∀ r, r ∈ rows → isString (field h r accessor) = true).
  { intros r Hr%list_elem_of_In. by apply Hstr. }
  apply consistentOn_spec. split.
  - intros x y Hx Hy.
    rewrite (proj1 (cmpRows_strings h accessor x y (His x Hx) (His y Hy))),
            (proj1 (cmpRows_strings h accessor y x (His y Hy) (His x Hx))).
    apply Hsym.
  - intros x y z Hx Hy Hz.
    rewrite (proj1 (cmpRows_strings h accessor x y (His x Hx) (His y Hy))),
            (proj1 (cmpRows_strings h accessor y z (His y Hy) (His z Hz))),
            (proj1 (cmpRows_strings h accessor x z (His x Hx) (His z Hz))).
    apply Htrans.
Qed.

End ConsistentColumns.
